(** * mev-inspect: swap reconstruction and arbitrage detection

    A shallow embedding of [mev_inspect/strategies/arbitrage.py] and the
    properties its specification states about it.

    Conventions of the embedding:
    - addresses, token addresses, transaction hashes and ABI names are
      strings; amounts are Python integers, hence [Z];
    - a Python [dict] is a [gmap], a Python [set] a [gset];
    - a Python call either returns, raises, or (for the [while True] loop of
      the detector) may run forever; [outcome] records which, the last one
      through a bound on the number of loop iterations. *)

From Stdlib Require Import ZArith Ascii String.
From stdpp Require Import base decidable option list sorting strings gmap.

(** * Outcomes of a Python call *)

Inductive exn : Type :=
  | RuntimeError (msg : string)
  | IndexError.

Inductive outcome (A : Type) : Type :=
  | Return (a : A)
  | Raise (e : exn)
  | OutOfFuel.

Arguments Return {A} a.
Arguments Raise {A} e.
Arguments OutOfFuel {A}.

#[global] Instance outcome_ret : MRet outcome := @Return.
#[global] Instance outcome_bind : MBind outcome := λ A B f m,
  match m with
  | Return a => f a
  | Raise e => Raise e
  | OutOfFuel => OutOfFuel
  end.

#[global] Instance exn_eq_dec : EqDecision exn.
Proof. solve_decision. Defined.

(** [l[i]] for a Python list, negative indices counting from the end;
    [None] stands for the [IndexError] of an index out of range. *)
Definition getitem {A} (l : list A) (i : Z) : option A :=
  let n := Z.of_nat (length l) in
  let j := if bool_decide (i < 0)%Z then (i + n)%Z else i in
  if bool_decide (0 ≤ j < n)%Z then l !! Z.to_nat j else None.

Definition subscript {A} (l : list A) (i : Z) : outcome A :=
  match getitem l i with
  | Some x => Return x
  | None => Raise IndexError
  end.

(** * Schemas *)

(** Modelled from the spec: [mev_inspect/schemas/classified_traces.py] is not
    part of the sources at hand.  The specification names the tags
    [transfer], [swap] and "other", and describes decoded [inputs] as a
    mapping from argument names to values; a value is an address or an
    unsigned integer. *)
Module Classification.
Inductive t : Type := unknown | swap | transfer.
End Classification.

#[global] Instance Classification_eq_dec : EqDecision Classification.t.
Proof. solve_decision. Defined.

Inductive abi_value : Type :=
  | Address (a : string)
  | Uint (n : Z).

#[global] Instance abi_value_eq_dec : EqDecision abi_value.
Proof. solve_decision. Defined.

Module ClassifiedTrace.
Record t : Type := mk {
  transaction_hash : string;
  trace_address : list Z;
  classification : Classification.t;
  abi_name : option string;
  from_address : string;
  to_address : string;
  inputs : option (gmap string abi_value)
}.
End ClassifiedTrace.

(** Modelled from the spec: [mev_inspect/schemas/transfers.py] is not part of
    the sources at hand.  The four fields below are the ones the
    specification lists and the ones [arbitrage.py] reads; [trace_address]
    is the position the dedup capability compares. *)
Module Transfer.
Record t : Type := mk {
  trace_address : list Z;
  from_address : string;
  to_address : string;
  token_address : string;
  amount : Z
}.
End Transfer.

#[global] Instance Transfer_eq_dec : EqDecision Transfer.t.
Proof. solve_decision. Defined.

(** The fields are those of the two [Swap(...)] calls of [arbitrage.py]. *)
Module Swap.
Record t : Type := mk {
  abi_name : string;
  transaction_hash : string;
  trace_address : list Z;
  pool_address : string;
  from_address : string;
  to_address : string;
  token_in_address : string;
  token_in_amount : Z;
  token_out_address : string;
  token_out_amount : Z
}.
End Swap.

#[global] Instance Swap_eq_dec : EqDecision Swap.t.
Proof. solve_decision. Defined.

(** The fields are those of the [Arbitrage(...)] call of [arbitrage.py]. *)
Module Arbitrage.
Record t : Type := mk {
  swaps : list Swap.t;
  account_address : string;
  profit_token_address : string;
  start_amount : Z;
  end_amount : Z;
  profit_amount : Z
}.
End Arbitrage.

#[global] Instance Arbitrage_eq_dec : EqDecision Arbitrage.t.
Proof. solve_decision. Defined.

Definition UNISWAP_V2_PAIR_ABI_NAME : string := "UniswapV2Pair".
Definition UNISWAP_V3_POOL_ABI_NAME : string := "UniswapV3Pool".

(** * The arbitrage detector *)

(** The local variables of [_get_arbitrage_starting_with_swap] that live
    across iterations of its [while True] loop. *)
Record loop_state : Type := mk_loop_state {
  swap_path : list Swap.t;
  current_address : string;
  current_token : string
}.

(** What one iteration of the loop does: go round again, [return], or
    [raise]. *)
Inductive loop_step : Type :=
  | Continue (st : loop_state)
  | Break (r : option Arbitrage.t)
  | Throw (e : exn).

(** The inner [for swap in other_swaps] loop. *)
Definition swaps_from_current_address
    (other_swaps : list Swap.t) (st : loop_state) : list Swap.t :=
  filter (λ swap, Swap.pool_address swap = current_address st
                  ∧ Swap.token_in_address swap = current_token st)
         other_swaps.

Definition loop_body (start_swap : Swap.t) (other_swaps : list Swap.t)
    (st : loop_state) : loop_step :=
  let candidates := swaps_from_current_address other_swaps st in
  if decide (length candidates = 0) then Break None
  else if decide (1 < length candidates) then Throw (RuntimeError "todo")
  else
    match getitem candidates 0 with
    | Some latest_swap =>
        let swap_path' := swap_path st ++ [latest_swap] in
        let current_address' := Swap.to_address latest_swap in
        let current_token' := Swap.token_out_address latest_swap in
        if decide (current_address' = Swap.from_address start_swap
                   ∧ current_token' = Swap.token_in_address start_swap)
        then
          let start_amount := Swap.token_in_amount start_swap in
          let end_amount := Swap.token_out_amount latest_swap in
          let profit_amount := (end_amount - start_amount)%Z in
          Break (Some {| Arbitrage.swaps := swap_path';
                         Arbitrage.account_address := Swap.from_address start_swap;
                         Arbitrage.profit_token_address :=
                           Swap.token_in_address start_swap;
                         Arbitrage.start_amount := start_amount;
                         Arbitrage.end_amount := end_amount;
                         Arbitrage.profit_amount := profit_amount |})
        else
          Continue {| swap_path := swap_path';
                      current_address := current_address';
                      current_token := current_token' |}
    | None => Throw IndexError
    end.

(** [while True: ...], cut off after [fuel] iterations. *)
Fixpoint while_true (fuel : nat) (start_swap : Swap.t)
    (other_swaps : list Swap.t) (st : loop_state)
    : outcome (option Arbitrage.t) :=
  match fuel with
  | O => OutOfFuel
  | S fuel' =>
      match loop_body start_swap other_swaps st with
      | Continue st' => while_true fuel' start_swap other_swaps st'
      | Break r => Return r
      | Throw e => Raise e
      end
  end.

Definition initial_state (start_swap : Swap.t) : loop_state :=
  {| swap_path := [start_swap];
     current_address := Swap.to_address start_swap;
     current_token := Swap.token_out_address start_swap |}.

Definition _get_arbitrage_starting_with_swap (fuel : nat)
    (start_swap : Swap.t) (other_swaps : list Swap.t)
    : outcome (option Arbitrage.t) :=
  while_true fuel start_swap other_swaps (initial_state start_swap).

(** [enumerate(l)] *)
Definition enumerate {A} (l : list A) : list (nat * A) := imap pair l.

(** [swaps[:index] + swaps[index + 1 :]] *)
Definition all_but (index : nat) (swaps : list Swap.t) : list Swap.t :=
  take index swaps ++ drop (S index) swaps.

(** The [for index, first_swap in enumerate(swaps)] loop of
    [_get_arbitrages_from_swaps], from the pairs still to visit. *)
Fixpoint for_each_start (fuel : nat) (swaps : list Swap.t)
    (pool_addresses : gset string) (todo : list (nat * Swap.t))
    (all_arbitrages : list Arbitrage.t) : outcome (list Arbitrage.t) :=
  match todo with
  | [] => Return all_arbitrages
  | (index, first_swap) :: todo' =>
      let other_swaps := all_but index swaps in
      if decide (Swap.from_address first_swap ∉ pool_addresses) then
        arbitrage ← _get_arbitrage_starting_with_swap fuel first_swap other_swaps;
        match arbitrage with
        | Some a =>
            for_each_start fuel swaps pool_addresses todo' (all_arbitrages ++ [a])
        | None =>
            for_each_start fuel swaps pool_addresses todo' all_arbitrages
        end
      else for_each_start fuel swaps pool_addresses todo' all_arbitrages
  end.

Definition _get_arbitrages_from_swaps (fuel : nat) (swaps : list Swap.t)
    : outcome (list Arbitrage.t) :=
  let pool_addresses : gset string :=
    list_to_set (Swap.pool_address <$> swaps) in
  for_each_start fuel swaps pool_addresses (enumerate swaps) [].

(** * The swap reconstructor *)

(** Modelled from the spec: [filter_transfers] lives in
    [mev_inspect/transfers.py], which is not part of the sources at hand.
    The specification describes its two uses: "transfers with
    [to_address == pool_address]" and "transfers with
    [from_address == pool_address AND to_address == recipient_address]";
    a keyword argument left out does not constrain the transfer. *)
Definition address_matches (wanted : option abi_value) (actual : string) : Prop :=
  match wanted with
  | None => True
  | Some v => v = Address actual
  end.

#[global] Instance address_matches_dec wanted actual :
  Decision (address_matches wanted actual).
Proof. destruct wanted; simpl; apply _. Defined.

Definition filter_transfers (transfers : list Transfer.t)
    (to_address from_address : option abi_value) : list Transfer.t :=
  filter (λ transfer,
            address_matches to_address (Transfer.to_address transfer)
            ∧ address_matches from_address (Transfer.from_address transfer))
         transfers.

(** [trace.inputs[name] if trace.inputs is not None and name in trace.inputs
    else trace.from_address] *)
Definition recipient_of (name : string) (trace : ClassifiedTrace.t) : abi_value :=
  match ClassifiedTrace.inputs trace with
  | Some inputs =>
      match inputs !! name with
      | Some v => v
      | None => Address (ClassifiedTrace.from_address trace)
      end
  | None => Address (ClassifiedTrace.from_address trace)
  end.

Definition _parse_uniswap_v3_swap (trace : ClassifiedTrace.t)
    (child_transfers : list Transfer.t) : outcome (option Swap.t) :=
  let pool_address := ClassifiedTrace.to_address trace in
  let recipient_address := recipient_of "recipient" trace in
  let transfers_to_pool :=
    filter_transfers child_transfers (Some (Address pool_address)) None in
  let transfers_from_pool_to_recipient :=
    filter_transfers child_transfers
      (Some recipient_address) (Some (Address pool_address)) in
  if decide (length transfers_to_pool = 0) then Return None
  else if decide (length transfers_from_pool_to_recipient ≠ 1) then Return None
  else
    transfer_in ← subscript transfers_to_pool (-1);
    transfer_out ← subscript transfers_from_pool_to_recipient 0;
    Return (Some {|
      Swap.abi_name := UNISWAP_V3_POOL_ABI_NAME;
      Swap.transaction_hash := ClassifiedTrace.transaction_hash trace;
      Swap.trace_address := ClassifiedTrace.trace_address trace;
      Swap.pool_address := pool_address;
      Swap.from_address := Transfer.from_address transfer_in;
      Swap.to_address := Transfer.to_address transfer_out;
      Swap.token_in_address := Transfer.token_address transfer_in;
      Swap.token_in_amount := Transfer.amount transfer_in;
      Swap.token_out_address := Transfer.token_address transfer_out;
      Swap.token_out_amount := Transfer.amount transfer_out |}).

Definition _parse_uniswap_v2_swap (trace : ClassifiedTrace.t)
    (prior_transfers child_transfers : list Transfer.t)
    : outcome (option Swap.t) :=
  let pool_address := ClassifiedTrace.to_address trace in
  let recipient_address := recipient_of "to" trace in
  let transfers_to_pool :=
    filter_transfers prior_transfers (Some (Address pool_address)) None in
  let transfers_from_pool_to_recipient :=
    filter_transfers child_transfers
      (Some recipient_address) (Some (Address pool_address)) in
  if decide (length transfers_to_pool = 0) then Return None
  else if decide (length transfers_from_pool_to_recipient ≠ 1) then Return None
  else
    transfer_in ← subscript transfers_to_pool (-1);
    transfer_out ← subscript transfers_from_pool_to_recipient 0;
    Return (Some {|
      Swap.abi_name := UNISWAP_V2_PAIR_ABI_NAME;
      Swap.transaction_hash := ClassifiedTrace.transaction_hash trace;
      Swap.trace_address := ClassifiedTrace.trace_address trace;
      Swap.pool_address := pool_address;
      Swap.from_address := Transfer.from_address transfer_in;
      Swap.to_address := Transfer.to_address transfer_out;
      Swap.token_in_address := Transfer.token_address transfer_in;
      Swap.token_in_amount := Transfer.amount transfer_in;
      Swap.token_out_address := Transfer.token_address transfer_out;
      Swap.token_out_amount := Transfer.amount transfer_out |}).

Definition _build_swap (trace : ClassifiedTrace.t)
    (prior_transfers child_transfers : list Transfer.t)
    : outcome (option Swap.t) :=
  if decide (ClassifiedTrace.abi_name trace = Some UNISWAP_V2_PAIR_ABI_NAME)
  then _parse_uniswap_v2_swap trace prior_transfers child_transfers
  else if decide (ClassifiedTrace.abi_name trace = Some UNISWAP_V3_POOL_ABI_NAME)
  then _parse_uniswap_v3_swap trace child_transfers
  else Return None.

(** ** Python's [sorted] and [itertools.groupby] *)

Section sorting.
Context {A K : Type} (ltb : K → K → bool) (key : A → K).

(** [sorted] compares keys with [<] only and is stable: an element goes
    in front of the first one that is not smaller than it. *)
Fixpoint insert_sorted (x : A) (l : list A) : list A :=
  match l with
  | [] => [x]
  | y :: l' =>
      if ltb (key y) (key x) then y :: insert_sorted x l' else x :: y :: l'
  end.

Definition sorted (l : list A) : list A := foldr insert_sorted [] l.
End sorting.

(** [groupby] starts a new group whenever the key changes. *)
Fixpoint groupby {A K : Type} `{EqDecision K} (key : A → K) (l : list A)
    : list (K * list A) :=
  match l with
  | [] => []
  | x :: l' =>
      match groupby key l' with
      | (k, g) :: groups =>
          if decide (key x = k) then (k, x :: g) :: groups
          else (key x, [x]) :: (k, g) :: groups
      | [] => [(key x, [x])]
      end
  end.

(** Python's [<] on lists of integers. *)
Fixpoint trace_address_ltb (a b : list Z) : bool :=
  match a, b with
  | _, [] => false
  | [], _ :: _ => true
  | x :: a', y :: b' =>
      if decide (x = y) then trace_address_ltb a' b' else bool_decide (x < y)%Z
  end.

(** ** Reconstruction and the entry point

    [Transfer.from_trace], [get_child_transfers] and
    [remove_child_transfers] are imported by [arbitrage.py] from modules that
    are not part of the sources at hand; the reconstructor is stated for any
    three such functions. *)
Section reconstruct.
Variable from_trace : ClassifiedTrace.t → Transfer.t.
Variable get_child_transfers :
  list Z → list ClassifiedTrace.t → list Transfer.t.
Variable remove_child_transfers : list Transfer.t → list Transfer.t.

(** The [for trace in ordered_traces] loop of [_get_swaps]. *)
Fixpoint for_each_trace (traces : list ClassifiedTrace.t)
    (ordered_traces : list ClassifiedTrace.t)
    (swaps : list Swap.t) (prior_transfers : list Transfer.t)
    : outcome (list Swap.t) :=
  match ordered_traces with
  | [] => Return swaps
  | trace :: rest =>
      if decide (ClassifiedTrace.classification trace = Classification.transfer)
      then
        for_each_trace traces rest swaps (prior_transfers ++ [from_trace trace])
      else if decide (ClassifiedTrace.classification trace = Classification.swap)
      then
        let child_transfers :=
          get_child_transfers (ClassifiedTrace.trace_address trace) traces in
        swap ← _build_swap trace
                 (remove_child_transfers prior_transfers)
                 (remove_child_transfers child_transfers);
        match swap with
        | Some s => for_each_trace traces rest (swaps ++ [s]) prior_transfers
        | None => for_each_trace traces rest swaps prior_transfers
        end
      else for_each_trace traces rest swaps prior_transfers
  end.

Definition _get_swaps (traces : list ClassifiedTrace.t)
    : outcome (list Swap.t) :=
  let ordered_traces :=
    sorted trace_address_ltb ClassifiedTrace.trace_address traces in
  for_each_trace traces ordered_traces [] [].

Definition _get_arbitrages_for_transaction (fuel : nat)
    (traces : list ClassifiedTrace.t) : outcome (list Arbitrage.t) :=
  swaps ← _get_swaps traces;
  if decide (1 < length swaps) then _get_arbitrages_from_swaps fuel swaps
  else Return [].

(** The [for _, transaction_traces in traces_by_transaction] loop. *)
Fixpoint for_each_transaction (fuel : nat)
    (traces_by_transaction : list (string * list ClassifiedTrace.t))
    (all_arbitrages : list Arbitrage.t) : outcome (list Arbitrage.t) :=
  match traces_by_transaction with
  | [] => Return all_arbitrages
  | (_, transaction_traces) :: rest =>
      arbitrages ← _get_arbitrages_for_transaction fuel transaction_traces;
      for_each_transaction fuel rest (all_arbitrages ++ arbitrages)
  end.

Definition get_arbitrages (fuel : nat) (traces : list ClassifiedTrace.t)
    : outcome (list Arbitrage.t) :=
  let get_transaction_hash := ClassifiedTrace.transaction_hash in
  let traces_by_transaction :=
    groupby get_transaction_hash
      (sorted String.ltb get_transaction_hash traces) in
  for_each_transaction fuel traces_by_transaction [].
End reconstruct.

(** ** The collaborators, as the specification describes them *)

(** [a] is a strict prefix of [b]: the call at [b] is below the call at [a]. *)
Fixpoint is_strict_descendant (a b : list Z) : bool :=
  match a, b with
  | [], _ :: _ => true
  | x :: a', y :: b' => bool_decide (x = y) && is_strict_descendant a' b'
  | _, [] => false
  end.

Definition input_address (trace : ClassifiedTrace.t) (name : string) : string :=
  match ClassifiedTrace.inputs trace with
  | Some inputs =>
      match inputs !! name with
      | Some (Address a) => a
      | _ => ""
      end
  | None => ""
  end.

Definition input_uint (trace : ClassifiedTrace.t) (name : string) : Z :=
  match ClassifiedTrace.inputs trace with
  | Some inputs =>
      match inputs !! name with
      | Some (Uint n) => n
      | _ => 0%Z
      end
  | None => 0%Z
  end.

(** Modelled from the spec: [Transfer.from_trace] is defined in
    [mev_inspect/schemas/transfers.py], not part of the sources at hand.  The
    specification only says it is a pure function from a transfer-classified
    trace to a [Transfer]; this instance reads the decoded arguments
    [sender], [recipient] and [amount] of a token contract's transfer call,
    the token being the callee. *)
Definition from_trace_spec (trace : ClassifiedTrace.t) : Transfer.t :=
  {| Transfer.trace_address := ClassifiedTrace.trace_address trace;
     Transfer.from_address := input_address trace "sender";
     Transfer.to_address := input_address trace "recipient";
     Transfer.token_address := ClassifiedTrace.to_address trace;
     Transfer.amount := input_uint trace "amount" |}.

(** Modelled from the spec: [get_child_transfers] is defined in
    [mev_inspect/transfers.py], not part of the sources at hand.  "All
    transfer traces whose [trace_address] is a strict descendant of this
    swap's [trace_address]", over the full trace set. *)
Definition get_child_transfers_spec (parent_trace_address : list Z)
    (traces : list ClassifiedTrace.t) : list Transfer.t :=
  from_trace_spec <$>
    filter (λ trace,
              ClassifiedTrace.classification trace = Classification.transfer
              ∧ is_strict_descendant parent_trace_address
                  (ClassifiedTrace.trace_address trace))
           traces.

(** Modelled from the spec: [remove_child_transfers] is defined in
    [mev_inspect/transfers.py], not part of the sources at hand.  "Remove
    entries shadowed by a nested transfer": of a transfer and a transfer
    nested inside it, "keep only the innermost (descendant) transfer and
    drop the outer one". *)
Definition remove_child_transfers_spec (transfers : list Transfer.t)
    : list Transfer.t :=
  filter (λ outer,
            ¬ Exists (λ inner,
                        is_strict_descendant (Transfer.trace_address outer)
                          (Transfer.trace_address inner))
                     transfers)
         transfers.

Definition _get_swaps_spec :=
  _get_swaps from_trace_spec get_child_transfers_spec remove_child_transfers_spec.
Definition _get_arbitrages_for_transaction_spec :=
  _get_arbitrages_for_transaction
    from_trace_spec get_child_transfers_spec remove_child_transfers_spec.
Definition get_arbitrages_spec :=
  get_arbitrages from_trace_spec get_child_transfers_spec remove_child_transfers_spec.

(** * Sample data *)

Module Sample.
Definition transfer_call (tx : string) (at_ : list Z)
    (token sender recipient : string) (amount : Z) : ClassifiedTrace.t :=
  {| ClassifiedTrace.transaction_hash := tx;
     ClassifiedTrace.trace_address := at_;
     ClassifiedTrace.classification := Classification.transfer;
     ClassifiedTrace.abi_name := Some "ERC20";
     ClassifiedTrace.from_address := sender;
     ClassifiedTrace.to_address := token;
     ClassifiedTrace.inputs :=
       Some (<["sender" := Address sender]>
             (<["recipient" := Address recipient]>
             (<["amount" := Uint amount]> ∅))) |}.

Definition v2_swap_call (tx : string) (at_ : list Z)
    (caller pool : string) (to : option string) : ClassifiedTrace.t :=
  {| ClassifiedTrace.transaction_hash := tx;
     ClassifiedTrace.trace_address := at_;
     ClassifiedTrace.classification := Classification.swap;
     ClassifiedTrace.abi_name := Some UNISWAP_V2_PAIR_ABI_NAME;
     ClassifiedTrace.from_address := caller;
     ClassifiedTrace.to_address := pool;
     ClassifiedTrace.inputs :=
       match to with
       | Some a => Some (<["to" := Address a]> ∅)
       | None => None
       end |}.

Definition v3_swap_call (tx : string) (at_ : list Z)
    (caller pool : string) (recipient : option string) : ClassifiedTrace.t :=
  {| ClassifiedTrace.transaction_hash := tx;
     ClassifiedTrace.trace_address := at_;
     ClassifiedTrace.classification := Classification.swap;
     ClassifiedTrace.abi_name := Some UNISWAP_V3_POOL_ABI_NAME;
     ClassifiedTrace.from_address := caller;
     ClassifiedTrace.to_address := pool;
     ClassifiedTrace.inputs :=
       match recipient with
       | Some a => Some (<["recipient" := Address a]> ∅)
       | None => None
       end |}.

(** Account [X] pays [amount_in] of token [A] into pool [P1]; [P1] pays 80
    of token [B] straight into pool [P2]; [P2] pays [amount_out] of token
    [A] back to [X]. *)
Definition two_hop (tx : string) (amount_in amount_out : Z)
    : list ClassifiedTrace.t :=
  [ transfer_call tx [0%Z] "A" "X" "P1" amount_in;
    v2_swap_call tx [1%Z] "X" "P1" (Some "P2");
    transfer_call tx [1%Z; 0%Z] "B" "P1" "P2" 80;
    v2_swap_call tx [2%Z] "X" "P2" (Some "X");
    transfer_call tx [2%Z; 0%Z] "A" "P2" "X" amount_out ].

Definition swap_at (tx : string) (at_ : list Z)
    (pool from to token_in : string) (amount_in : Z)
    (token_out : string) (amount_out : Z) : Swap.t :=
  {| Swap.abi_name := UNISWAP_V2_PAIR_ABI_NAME;
     Swap.transaction_hash := tx;
     Swap.trace_address := at_;
     Swap.pool_address := pool;
     Swap.from_address := from;
     Swap.to_address := to;
     Swap.token_in_address := token_in;
     Swap.token_in_amount := amount_in;
     Swap.token_out_address := token_out;
     Swap.token_out_amount := amount_out |}.

Definition swap_v3_at (tx : string) (at_ : list Z)
  (pool from to token_in : string) (amount_in : Z)
  (token_out : string) (amount_out : Z) : Swap.t :=
{| Swap.abi_name := UNISWAP_V3_POOL_ABI_NAME;
   Swap.transaction_hash := tx;
   Swap.trace_address := at_;
   Swap.pool_address := pool;
   Swap.from_address := from;
   Swap.to_address := to;
   Swap.token_in_address := token_in;
   Swap.token_in_amount := amount_in;
   Swap.token_out_address := token_out;
   Swap.token_out_amount := amount_out |}.

Definition hop1 (tx : string) (amount_in : Z) : Swap.t :=
  swap_at tx [1%Z] "P1" "X" "P2" "A" amount_in "B" 80.
Definition hop2 (tx : string) (amount_out : Z) : Swap.t :=
  swap_at tx [2%Z] "P2" "P1" "X" "B" 80 "A" amount_out.

Definition two_hop_arbitrage (tx : string) (amount_in amount_out : Z)
    : Arbitrage.t :=
  {| Arbitrage.swaps := [hop1 tx amount_in; hop2 tx amount_out];
     Arbitrage.account_address := "X";
     Arbitrage.profit_token_address := "A";
     Arbitrage.start_amount := amount_in;
     Arbitrage.end_amount := amount_out;
     Arbitrage.profit_amount := (amount_out - amount_in)%Z |}.

(** [X] enters at [P1]; the swaps at [P2] and [P3] then feed each other. *)
Definition lasso_entry : Swap.t :=
swap_at "0xa" [1%Z] "P1" "X" "P2" "A" 100 "B" 80.
Definition lasso_there : Swap.t :=
swap_at "0xa" [2%Z] "P2" "P1" "P3" "B" 80 "C" 60.
Definition lasso_back : Swap.t :=
swap_at "0xa" [3%Z] "P3" "P2" "P2" "C" 60 "B" 70.
Definition lasso : list Swap.t := [lasso_entry; lasso_there; lasso_back].

(** A transaction whose swaps are [lasso]. *)
Definition lasso_traces : list ClassifiedTrace.t :=
[ transfer_call "0xa" [0%Z] "A" "X" "P1" 100;
  v2_swap_call "0xa" [1%Z] "X" "P1" (Some "P2");
  transfer_call "0xa" [1%Z; 0%Z] "B" "P1" "P2" 80;
  v2_swap_call "0xa" [2%Z] "X" "P2" (Some "P3");
  transfer_call "0xa" [2%Z; 0%Z] "C" "P2" "P3" 60;
  v2_swap_call "0xa" [3%Z] "X" "P3" (Some "P2");
  transfer_call "0xa" [3%Z; 0%Z] "B" "P3" "P2" 70 ].

(** Two swaps at [P2] both take token [B]. *)
Definition fork_entry : Swap.t :=
  swap_at "0xa" [0%Z] "P1" "X" "P2" "A" 100 "B" 80.
Definition fork_left : Swap.t :=
  swap_at "0xa" [1%Z] "P2" "P1" "X" "B" 40 "A" 60.
Definition fork_right : Swap.t :=
  swap_at "0xa" [2%Z] "P2" "P1" "X" "B" 40 "A" 50.
Definition fork : list Swap.t := [fork_entry; fork_left; fork_right].

(** The cycle of [two_hop], then a start by [Y] with two continuations. *)
Definition cycle_then_fork : list Swap.t :=
[ hop1 "0xa" 100; hop2 "0xa" 110;
  swap_at "0xa" [3%Z] "Q1" "Y" "Q2" "A" 100 "B" 80;
  swap_at "0xa" [4%Z] "Q2" "Q1" "Y" "B" 40 "A" 60;
  swap_at "0xa" [5%Z] "Q2" "Q1" "Y" "B" 40 "A" 50 ].
End Sample.

(** * Notions used to state the properties *)

(** ** The detector *)

(** The state of the loop after [n] iterations that went round again. *)
Fixpoint after_iterations (n : nat) (start_swap : Swap.t)
    (other_swaps : list Swap.t) (st : loop_state) : option loop_state :=
  match n with
  | O => Some st
  | S n' =>
      match loop_body start_swap other_swaps st with
      | Continue st' => after_iterations n' start_swap other_swaps st'
      | _ => None
      end
  end.

(** The search from [start_swap] meets, at some iteration, more than one
    swap that continues the path. *)
Definition ambiguous (start_swap : Swap.t) (other_swaps : list Swap.t) : Prop :=
  ∃ n st,
    after_iterations n start_swap other_swaps (initial_state start_swap) = Some st
    ∧ 1 < length (swaps_from_current_address other_swaps st).

(** [next] continues from where [previous] left the tokens. *)
Definition continues (previous next : Swap.t) : Prop :=
  Swap.pool_address next = Swap.to_address previous
  ∧ Swap.token_in_address next = Swap.token_out_address previous.

Definition consecutive_linked (path : list Swap.t) : Prop :=
  ∀ i previous next,
    path !! i = Some previous → path !! S i = Some next →
    continues previous next.

(** [final] hands the start's token back to the start's account. *)
Definition closes (first final : Swap.t) : Prop :=
  Swap.to_address final = Swap.from_address first
  ∧ Swap.token_out_address final = Swap.token_in_address first.

Definition cycle_invariant (arbitrage : Arbitrage.t) : Prop :=
  2 ≤ length (Arbitrage.swaps arbitrage)
  ∧ consecutive_linked (Arbitrage.swaps arbitrage)
  ∧ ∃ first final,
      head (Arbitrage.swaps arbitrage) = Some first
      ∧ last (Arbitrage.swaps arbitrage) = Some final
      ∧ closes first final.

(** What holds of the loop state at the top of every iteration. *)
Definition path_invariant (start_swap : Swap.t) (st : loop_state) : Prop :=
  head (swap_path st) = Some start_swap
  ∧ consecutive_linked (swap_path st)
  ∧ ∃ final,
      last (swap_path st) = Some final
      ∧ Swap.to_address final = current_address st
      ∧ Swap.token_out_address final = current_token st.

(** A start the [for] loop gets past: it is skipped, or its search returns. *)
Definition start_returns (fuel : nat) (swaps : list Swap.t)
    (pool_addresses : gset string) (p : nat * Swap.t) : Prop :=
  Swap.from_address p.2 ∈ pool_addresses
  ∨ ∃ r, _get_arbitrage_starting_with_swap fuel p.2 (all_but p.1 swaps) = Return r.

(** ** The reconstructor *)

(** The two protocol patterns and the local variables of the two parsers,
    as functions of the parsers' arguments. *)
Inductive pattern : Type := PatternA | PatternB.

Definition pattern_of (trace : ClassifiedTrace.t) : option pattern :=
  if decide (ClassifiedTrace.abi_name trace = Some UNISWAP_V2_PAIR_ABI_NAME)
  then Some PatternA
  else if decide (ClassifiedTrace.abi_name trace = Some UNISWAP_V3_POOL_ABI_NAME)
  then Some PatternB
  else None.

Definition recipient_field (p : pattern) : string :=
  match p with PatternA => "to" | PatternB => "recipient" end.

Definition recipient_address (p : pattern) (trace : ClassifiedTrace.t)
    : abi_value :=
  recipient_of (recipient_field p) trace.

Definition transfers_to_pool (p : pattern) (trace : ClassifiedTrace.t)
    (prior_transfers child_transfers : list Transfer.t) : list Transfer.t :=
  filter_transfers
    (match p with PatternA => prior_transfers | PatternB => child_transfers end)
    (Some (Address (ClassifiedTrace.to_address trace))) None.

Definition transfers_from_pool_to_recipient (p : pattern)
    (trace : ClassifiedTrace.t) (child_transfers : list Transfer.t)
    : list Transfer.t :=
  filter_transfers child_transfers
    (Some (recipient_address p trace))
    (Some (Address (ClassifiedTrace.to_address trace))).

Definition pattern_abi_name (p : pattern) : string :=
  match p with
  | PatternA => UNISWAP_V2_PAIR_ABI_NAME
  | PatternB => UNISWAP_V3_POOL_ABI_NAME
  end.

(** The [Swap(...)] both parsers build from the two transfers they chose. *)
Definition swap_from_transfers (p : pattern) (trace : ClassifiedTrace.t)
    (transfer_in transfer_out : Transfer.t) : Swap.t :=
  {| Swap.abi_name := pattern_abi_name p;
     Swap.transaction_hash := ClassifiedTrace.transaction_hash trace;
     Swap.trace_address := ClassifiedTrace.trace_address trace;
     Swap.pool_address := ClassifiedTrace.to_address trace;
     Swap.from_address := Transfer.from_address transfer_in;
     Swap.to_address := Transfer.to_address transfer_out;
     Swap.token_in_address := Transfer.token_address transfer_in;
     Swap.token_in_amount := Transfer.amount transfer_in;
     Swap.token_out_address := Transfer.token_address transfer_out;
     Swap.token_out_amount := Transfer.amount transfer_out |}.

Definition parse (p : pattern) (trace : ClassifiedTrace.t)
    (prior_transfers child_transfers : list Transfer.t)
    : outcome (option Swap.t) :=
  match p with
  | PatternA => _parse_uniswap_v2_swap trace prior_transfers child_transfers
  | PatternB => _parse_uniswap_v3_swap trace child_transfers
  end.

(** The conditions under which the specification says no swap is built. *)
Definition no_swap_evidence (trace : ClassifiedTrace.t)
    (prior_transfers child_transfers : list Transfer.t) : Prop :=
  match pattern_of trace with
  | None => True
  | Some p =>
      transfers_to_pool p trace prior_transfers child_transfers = []
      ∨ length (transfers_from_pool_to_recipient p trace child_transfers) ≠ 1
  end.

(** ** Sorting *)

(** [x] does not come after [y] in the order of the keys. *)
Definition not_after {A K : Type} (ltb : K → K → bool) (key : A → K)
    (x y : A) : Prop :=
  ltb (key y) (key x) = false.

(** ** The entry point, as the specification words it *)

(** The distinct keys of a list, in the order in which each is first met. *)
Fixpoint first_encounters {K : Type} `{EqDecision K} (keys : list K) : list K :=
  match keys with
  | [] => []
  | k :: keys' => k :: filter (λ k', k' ≠ k) (first_encounters keys')
  end.

(** The traces of transaction [h], in input order. *)
Definition partition_of (traces : list ClassifiedTrace.t) (h : string)
    : string * list ClassifiedTrace.t :=
  (h, filter (λ trace, ClassifiedTrace.transaction_hash trace = h) traces).

Section entry_point_spec.
Variable from_trace : ClassifiedTrace.t → Transfer.t.
Variable get_child_transfers :
  list Z → list ClassifiedTrace.t → list Transfer.t.
Variable remove_child_transfers : list Transfer.t → list Transfer.t.

(** "Partitions by [transaction_hash], applies the two stages per
    partition, and concatenates results in partition-encounter order." *)
Definition get_arbitrages_in_encounter_order (fuel : nat)
    (traces : list ClassifiedTrace.t) : outcome (list Arbitrage.t) :=
  for_each_transaction from_trace get_child_transfers remove_child_transfers
    fuel
    (partition_of traces <$>
       first_encounters (ClassifiedTrace.transaction_hash <$> traces))
    [].
End entry_point_spec.

(** ** More notions for the detector *)

(** Two loop states at the same address with the same token. *)
Definition same_key (st st' : loop_state) : Prop :=
  current_address st = current_address st'
  ∧ current_token st = current_token st'.

(** The loop goes round at least [n] times from [st]. *)
Definition goes_round (n : nat) (start_swap : Swap.t)
    (other_swaps : list Swap.t) (st : loop_state) : Prop :=
  is_Some (after_iterations n start_swap other_swaps st).

(** ** More sample data *)

Module MoreSamples.
(** Two pools that trade with each other only. *)
Definition pool_ring : list Swap.t :=
  [ Sample.swap_at "0xa" [1%Z] "P2" "P3" "P3" "B" 80 "C" 60;
    Sample.swap_at "0xa" [2%Z] "P3" "P2" "P2" "C" 60 "B" 70 ].

(** Two pools trading with each other: the second swap closes the cycle the
    first one opens, and both senders are pools. *)
Definition pool_pair_cycle : list Swap.t :=
  [ Sample.swap_at "0xa" [1%Z] "P1" "P2" "P2" "A" 100 "B" 80;
    Sample.swap_at "0xa" [2%Z] "P2" "P1" "P2" "B" 80 "A" 110 ].

(** Two swaps at [P2] continue the first one; all senders are pools. *)
Definition pool_fork : list Swap.t :=
  [ Sample.swap_at "0xa" [1%Z] "P1" "P2" "P2" "A" 100 "B" 80;
    Sample.swap_at "0xa" [2%Z] "P2" "P1" "P1" "B" 40 "A" 60;
    Sample.swap_at "0xa" [3%Z] "P2" "P1" "P1" "B" 40 "C" 50 ].

(** The swaps of [lasso], then a start by [Y] with two continuations. *)
Definition lasso_then_fork : list Swap.t :=
  Sample.lasso ++ drop 2 Sample.cycle_then_fork.
End MoreSamples.

(** * Properties of the detector *)

Lemma getitem_first {A} (x : A) (l : list A) : getitem (x :: l) 0 = Some x.
Proof.
  unfold getitem; cbn [length].
  rewrite (bool_decide_eq_false_2 (0 < 0)%Z) by lia.
  rewrite bool_decide_eq_true_2 by lia.
  reflexivity.
Qed.

Lemma getitem_last {A} (l : list A) : getitem l (-1) = last l.
Proof.
  unfold getitem.
  rewrite (bool_decide_eq_true_2 (-1 < 0)%Z) by lia.
  rewrite last_lookup.
  destruct l as [|x l]; [reflexivity|].
  rewrite bool_decide_eq_true_2 by (cbn [length]; lia).
  f_equal. cbn [length]. lia.
Qed.

(** One iteration, by the number of swaps that continue the path. *)
Lemma loop_body_cases start_swap other_swaps st :
  loop_body start_swap other_swaps st =
  match swaps_from_current_address other_swaps st with
  | [] => Break None
  | [latest_swap] =>
      if decide (Swap.to_address latest_swap = Swap.from_address start_swap
                 ∧ Swap.token_out_address latest_swap
                   = Swap.token_in_address start_swap)
      then
        Break (Some {|
          Arbitrage.swaps := swap_path st ++ [latest_swap];
          Arbitrage.account_address := Swap.from_address start_swap;
          Arbitrage.profit_token_address := Swap.token_in_address start_swap;
          Arbitrage.start_amount := Swap.token_in_amount start_swap;
          Arbitrage.end_amount := Swap.token_out_amount latest_swap;
          Arbitrage.profit_amount :=
            (Swap.token_out_amount latest_swap
             - Swap.token_in_amount start_swap)%Z |})
      else
        Continue {| swap_path := swap_path st ++ [latest_swap];
                    current_address := Swap.to_address latest_swap;
                    current_token := Swap.token_out_address latest_swap |}
  | _ :: _ :: _ => Throw (RuntimeError "todo")
  end.
Proof.
  unfold loop_body.
  destruct (swaps_from_current_address other_swaps st) as [|x [|y l]];
    cbn [length]; rewrite ?getitem_first;
    repeat case_decide; try lia; try reflexivity; tauto.
Qed.

Lemma candidate_continues other_swaps st swap :
  swap ∈ swaps_from_current_address other_swaps st →
  Swap.pool_address swap = current_address st
  ∧ Swap.token_in_address swap = current_token st.
Proof. unfold swaps_from_current_address. rewrite list_elem_of_filter. tauto. Qed.

(** More fuel does not change an outcome already reached. *)
Lemma while_true_more_fuel fuel fuel' start_swap other_swaps st r :
  while_true fuel start_swap other_swaps st = r →
  r ≠ OutOfFuel → fuel ≤ fuel' →
  while_true fuel' start_swap other_swaps st = r.
Proof.
  revert fuel' st.
  induction fuel as [|fuel IH]; intros fuel' st Hr Hne Hle; cbn in Hr.
  - congruence.
  - destruct fuel' as [|fuel']; [lia|]. cbn.
    destruct (loop_body start_swap other_swaps st); auto with lia.
Qed.

Lemma while_true_after n k start_swap other_swaps st st' :
  after_iterations n start_swap other_swaps st = Some st' →
  while_true (n + k) start_swap other_swaps st
  = while_true k start_swap other_swaps st'.
Proof.
  revert st. induction n as [|n IH]; intros st Hn; cbn in *.
  - congruence.
  - destruct (loop_body start_swap other_swaps st); try discriminate. auto.
Qed.

(** The outcome of a search that raises is the same whatever the fuel, once
    there is enough of it. *)
Lemma search_raises_never_returns fuel fuel' start_swap other_swaps e r :
  _get_arbitrage_starting_with_swap fuel start_swap other_swaps = Raise e →
  _get_arbitrage_starting_with_swap fuel' start_swap other_swaps ≠ Return r.
Proof.
  unfold _get_arbitrage_starting_with_swap. intros He Hr.
  destruct (Nat.le_ge_cases fuel fuel') as [Hle|Hle].
  - eapply while_true_more_fuel in He; [|discriminate|exact Hle]. congruence.
  - eapply while_true_more_fuel in Hr; [|discriminate|exact Hle]. congruence.
Qed.

Lemma ambiguous_raises start_swap other_swaps n st fuel :
  after_iterations n start_swap other_swaps (initial_state start_swap) = Some st →
  1 < length (swaps_from_current_address other_swaps st) →
  n < fuel →
  _get_arbitrage_starting_with_swap fuel start_swap other_swaps
  = Raise (RuntimeError "todo").
Proof.
  intros Hn Hamb Hlt. unfold _get_arbitrage_starting_with_swap.
  replace fuel with (n + S (fuel - S n)) by lia.
  rewrite (while_true_after _ _ _ _ _ _ Hn). cbn.
  rewrite loop_body_cases.
  destruct (swaps_from_current_address other_swaps st) as [|x [|y l]];
    cbn in Hamb; try lia. reflexivity.
Qed.

(** ** The path stays a chain *)

Lemma consecutive_linked_snoc path final swap :
  consecutive_linked path → last path = Some final → continues final swap →
  consecutive_linked (path ++ [swap]).
Proof.
  intros Hpath Hlast Hc i a b Ha Hb.
  destruct (decide (S i < length path)) as [Hlt|Hge].
  - rewrite lookup_app_l in Ha by lia. rewrite lookup_app_l in Hb by lia.
    eauto.
  - pose proof (lookup_lt_Some _ _ _ Hb) as Hlen.
    rewrite length_app in Hlen; cbn in Hlen.
    rewrite lookup_app_l in Ha by lia.
    rewrite last_lookup in Hlast.
    replace (pred (length path)) with i in Hlast by lia.
    rewrite lookup_app_r in Hb by lia.
    replace (S i - length path) with 0 in Hb by lia.
    cbn in Hb. congruence.
Qed.

Lemma initial_state_invariant start_swap :
  path_invariant start_swap (initial_state start_swap).
Proof.
  split; [reflexivity|]. split.
  - intros i a b _ Hb. destruct i; discriminate.
  - exists start_swap. auto.
Qed.

Lemma loop_body_continue_invariant start_swap other_swaps st st' :
  path_invariant start_swap st →
  loop_body start_swap other_swaps st = Continue st' →
  path_invariant start_swap st'.
Proof.
  intros (Hhead & Hlinked & final & Hlast & Haddr & Htok).
  rewrite loop_body_cases.
  destruct (swaps_from_current_address other_swaps st) as [|x [|y l]] eqn:Hc;
    try discriminate.
  case_decide; [discriminate|]. intros [= <-].
  unfold path_invariant; cbn [swap_path current_address current_token].
  destruct (candidate_continues other_swaps st x) as [Hp Ht].
  { rewrite Hc. left. }
  split; [|split].
  - rewrite head_app, Hhead. reflexivity.
  - apply consecutive_linked_snoc with final; auto.
    split; congruence.
  - exists x. rewrite last_snoc. auto.
Qed.

Lemma after_iterations_invariant n start_swap other_swaps st st' :
  path_invariant start_swap st →
  after_iterations n start_swap other_swaps st = Some st' →
  path_invariant start_swap st'.
Proof.
  revert st. induction n as [|n IH]; intros st Hinv; cbn.
  - intros [= <-]. exact Hinv.
  - destruct (loop_body start_swap other_swaps st) eqn:Hbody; try discriminate.
    apply IH. eapply loop_body_continue_invariant; eauto.
Qed.

Lemma loop_body_break_invariant start_swap other_swaps st arbitrage :
  path_invariant start_swap st →
  loop_body start_swap other_swaps st = Break (Some arbitrage) →
  cycle_invariant arbitrage.
Proof.
  intros (Hhead & Hlinked & final & Hlast & Haddr & Htok).
  rewrite loop_body_cases.
  destruct (swaps_from_current_address other_swaps st) as [|x [|y l]] eqn:Hc;
    try discriminate.
  case_decide as Hcl; [|discriminate]. intros [= <-].
  unfold cycle_invariant, closes; cbn [Arbitrage.swaps].
  destruct (candidate_continues other_swaps st x) as [Hp Ht].
  { rewrite Hc. left. }
  split; [|split].
  - rewrite length_app. cbn.
    destruct (swap_path st); [discriminate|cbn; lia].
  - apply consecutive_linked_snoc with final; auto.
    split; congruence.
  - exists start_swap, x. rewrite head_app, Hhead, last_snoc. auto.
Qed.

Lemma while_true_cycle_invariant fuel start_swap other_swaps st arbitrage :
  path_invariant start_swap st →
  while_true fuel start_swap other_swaps st = Return (Some arbitrage) →
  cycle_invariant arbitrage.
Proof.
  revert st. induction fuel as [|fuel IH]; intros st Hinv; cbn; [discriminate|].
  destruct (loop_body start_swap other_swaps st) as [st'|r|e] eqn:Hbody.
  - apply IH. eapply loop_body_continue_invariant; eauto.
  - intros [= ->]. eapply loop_body_break_invariant; eauto.
  - discriminate.
Qed.

Lemma for_each_start_Forall (P : Arbitrage.t → Prop) fuel swaps pool_addresses :
  (∀ start_swap other_swaps arbitrage,
     _get_arbitrage_starting_with_swap fuel start_swap other_swaps
     = Return (Some arbitrage) → P arbitrage) →
  ∀ todo all_arbitrages result,
    Forall P all_arbitrages →
    for_each_start fuel swaps pool_addresses todo all_arbitrages = Return result →
    Forall P result.
Proof.
  intros HP todo.
  induction todo as [|[index first_swap] todo IH]; intros acc result Hacc; cbn.
  - intros [= <-]. exact Hacc.
  - case_decide; [|apply IH; exact Hacc].
    destruct (_get_arbitrage_starting_with_swap fuel first_swap
                (all_but index swaps)) as [[a|]|e|] eqn:Hs; cbn;
      try discriminate.
    + apply IH. apply Forall_app. split; [exact Hacc|].
      constructor; [|constructor]. eapply HP; eauto.
    + apply IH. exact Hacc.
Qed.

(** Closed decidable facts about the sample data are settled by running
    their decision procedure. *)
Ltac by_computation := compute_done.

(** ** A search that closes *)

(** Whenever the path followed from [start_swap] comes to a state whose
    only continuation [latest_swap] hands the start's input token back to the
    start's account, the search returns one [Arbitrage]: its swaps are the
    path followed so far with [latest_swap] appended (beginning with
    [start_swap], ending with [latest_swap]), its account and profit token
    are the start's [from_address] and [token_in_address], its start amount
    is the start's [token_in_amount], its end amount the last swap's
    [token_out_amount], and its profit the difference of the two, whatever
    its sign. *)
Lemma closing_search_returns_arbitrage
    start_swap other_swaps n st latest_swap fuel :
  after_iterations n start_swap other_swaps (initial_state start_swap) = Some st →
  swaps_from_current_address other_swaps st = [latest_swap] →
  Swap.to_address latest_swap = Swap.from_address start_swap →
  Swap.token_out_address latest_swap = Swap.token_in_address start_swap →
  n < fuel →
  ∃ arbitrage,
    _get_arbitrage_starting_with_swap fuel start_swap other_swaps
    = Return (Some arbitrage)
    ∧ Arbitrage.swaps arbitrage = swap_path st ++ [latest_swap]
    ∧ head (Arbitrage.swaps arbitrage) = Some start_swap
    ∧ last (Arbitrage.swaps arbitrage) = Some latest_swap
    ∧ Arbitrage.account_address arbitrage = Swap.from_address start_swap
    ∧ Arbitrage.profit_token_address arbitrage = Swap.token_in_address start_swap
    ∧ Arbitrage.start_amount arbitrage = Swap.token_in_amount start_swap
    ∧ Arbitrage.end_amount arbitrage = Swap.token_out_amount latest_swap
    ∧ Arbitrage.profit_amount arbitrage
      = (Arbitrage.end_amount arbitrage - Arbitrage.start_amount arbitrage)%Z.
Proof.
  intros Hn Hone Haddr Htok Hfuel.
  assert (Hinv : path_invariant start_swap st).
  { eapply after_iterations_invariant; [apply initial_state_invariant|eauto]. }
  destruct Hinv as (Hhead & _).
  eexists. split.
  - unfold _get_arbitrage_starting_with_swap.
    replace fuel with (n + S (fuel - S n)) by lia.
    rewrite (while_true_after _ _ _ _ _ _ Hn). cbn [while_true].
    rewrite loop_body_cases, Hone.
    rewrite decide_True by auto. reflexivity.
  - cbn. rewrite head_app, Hhead, last_snoc. repeat split; reflexivity.
Qed.

(** A cycle that loses money is reported all the same. *)
Example losing_cycle_is_reported :
  _get_arbitrages_from_swaps 1 [Sample.hop1 "0xa" 100; Sample.hop2 "0xa" 90]
  = Return [Sample.two_hop_arbitrage "0xa" 100 90]
  ∧ Arbitrage.profit_amount (Sample.two_hop_arbitrage "0xa" 100 90) = (-10)%Z.
Proof. split; vm_compute; reflexivity. Qed.

(** ** Every emitted arbitrage is a cycle *)

(** C8.  Every [Arbitrage] in a list returned by detection has at least two
    swaps, each swap after the first is at the pool the previous one paid
    into and takes the token the previous one paid out, and the last swap
    pays the first swap's input token to the first swap's sender. *)
Theorem detected_arbitrages_are_cycles fuel swaps arbitrages :
  _get_arbitrages_from_swaps fuel swaps = Return arbitrages →
  Forall cycle_invariant arbitrages.
Proof.
  unfold _get_arbitrages_from_swaps.
  apply for_each_start_Forall; [|constructor].
  intros start_swap other_swaps arbitrage.
  apply while_true_cycle_invariant, initial_state_invariant.
Qed.

Lemma detected_arbitrages_are_cycles_witness :
  Forall cycle_invariant [Sample.two_hop_arbitrage "0xa" 100 110].
Proof.
  apply (detected_arbitrages_are_cycles 1
           [Sample.hop1 "0xa" 100; Sample.hop2 "0xa" 110]).
  vm_compute. reflexivity.
Defined.

(** ** Swaps already on the path stay among the candidates *)

(** The swaps an iteration chooses from do not depend on the path so far. *)
Lemma candidates_ignore_the_path other_swaps path path' address token :
  swaps_from_current_address other_swaps
    {| swap_path := path; current_address := address; current_token := token |}
  = swaps_from_current_address other_swaps
      {| swap_path := path'; current_address := address;
         current_token := token |}.
Proof. reflexivity. Qed.

(** C2.  [other_swaps] leaves out the start swap only, and no iteration
    shrinks it: from [lasso_entry] the third iteration matches
    [lasso_there] again and appends it to the path a second time. *)
Theorem lasso_reuses_a_swap :
  all_but 0 Sample.lasso = [Sample.lasso_there; Sample.lasso_back]
  ∧ after_iterations 3 Sample.lasso_entry (all_but 0 Sample.lasso)
      (initial_state Sample.lasso_entry)
    = Some {| swap_path := [Sample.lasso_entry; Sample.lasso_there;
                            Sample.lasso_back; Sample.lasso_there];
              current_address := "P3";
              current_token := "C" |}.
Proof. split; vm_compute; reflexivity. Qed.

(** ** A search that goes round for ever *)

Lemma lasso_there_step path :
  loop_body Sample.lasso_entry [Sample.lasso_there; Sample.lasso_back]
    {| swap_path := path; current_address := "P2"; current_token := "B" |}
  = Continue {| swap_path := path ++ [Sample.lasso_there];
                current_address := "P3"; current_token := "C" |}.
Proof. rewrite loop_body_cases. reflexivity. Qed.

Lemma lasso_back_step path :
  loop_body Sample.lasso_entry [Sample.lasso_there; Sample.lasso_back]
    {| swap_path := path; current_address := "P3"; current_token := "C" |}
  = Continue {| swap_path := path ++ [Sample.lasso_back];
                current_address := "P2"; current_token := "B" |}.
Proof. rewrite loop_body_cases. reflexivity. Qed.

Lemma lasso_spins fuel :
  ∀ path,
    while_true fuel Sample.lasso_entry [Sample.lasso_there; Sample.lasso_back]
      {| swap_path := path; current_address := "P2"; current_token := "B" |}
    = OutOfFuel
    ∧ while_true fuel Sample.lasso_entry [Sample.lasso_there; Sample.lasso_back]
        {| swap_path := path; current_address := "P3"; current_token := "C" |}
      = OutOfFuel.
Proof.
  induction fuel as [|fuel IH]; intros path; [split; reflexivity|].
  cbn [while_true]. rewrite lasso_there_step, lasso_back_step.
  split; apply IH.
Qed.

Lemma lasso_traces_swaps : _get_swaps_spec Sample.lasso_traces = Return Sample.lasso.
Proof. vm_compute. reflexivity. Qed.

Lemma lasso_traces_groups :
  groupby ClassifiedTrace.transaction_hash
    (sorted String.ltb ClassifiedTrace.transaction_hash Sample.lasso_traces)
  = [("0xa", Sample.lasso_traces)].
Proof. vm_compute. reflexivity. Qed.

(** C3.  The loop of [_get_arbitrage_starting_with_swap] does not end on
    every finite list of swaps: on [lasso] no number of iterations brings the
    search from [lasso_entry] to a [return] or a [raise], detection over
    [lasso] never gets past its first start, and neither does
    [get_arbitrages] over the traces [lasso] is reconstructed from. *)
Theorem lasso_search_never_ends fuel :
  _get_arbitrage_starting_with_swap fuel Sample.lasso_entry
    (all_but 0 Sample.lasso) = OutOfFuel
  ∧ _get_arbitrages_from_swaps fuel Sample.lasso = OutOfFuel
  ∧ _get_swaps_spec Sample.lasso_traces = Return Sample.lasso
  ∧ get_arbitrages_spec fuel Sample.lasso_traces = OutOfFuel.
Proof.
  assert (Hsearch :
    _get_arbitrage_starting_with_swap fuel Sample.lasso_entry
      (all_but 0 Sample.lasso) = OutOfFuel).
  { apply (lasso_spins fuel [Sample.lasso_entry]). }
  assert (Hdetect : _get_arbitrages_from_swaps fuel Sample.lasso = OutOfFuel).
  { unfold _get_arbitrages_from_swaps.
    cbn [Sample.lasso enumerate imap for_each_start].
    rewrite decide_True by by_computation.
    rewrite Hsearch. reflexivity. }
  split; [exact Hsearch|]. split; [exact Hdetect|].
  split; [exact lasso_traces_swaps|].
  unfold get_arbitrages_spec, get_arbitrages.
  rewrite lasso_traces_groups.
  cbn [for_each_transaction]. unfold _get_arbitrages_for_transaction.
  fold _get_swaps_spec. rewrite lasso_traces_swaps.
  cbn [mbind outcome_bind]. rewrite decide_True by (cbn; lia).
  rewrite Hdetect. reflexivity.
Qed.

(** ** An ambiguous continuation *)

(** The only error the detector raises is the one of its [raise]. *)
Lemma while_true_raises fuel start_swap other_swaps st e :
  while_true fuel start_swap other_swaps st = Raise e → e = RuntimeError "todo".
Proof.
  revert st. induction fuel as [|fuel IH]; intros st; cbn; [discriminate|].
  rewrite loop_body_cases.
  destruct (swaps_from_current_address other_swaps st) as [|x [|y l]];
    try case_decide; try discriminate; try apply IH.
  intros [= <-]. reflexivity.
Qed.

Lemma for_each_start_raises fuel swaps pool_addresses todo :
  ∀ all_arbitrages e,
    for_each_start fuel swaps pool_addresses todo all_arbitrages = Raise e →
    e = RuntimeError "todo".
Proof.
  induction todo as [|[index first_swap] todo IH]; intros acc e;
    cbn [for_each_start]; [discriminate|].
  case_decide; [|apply IH].
  destruct (_get_arbitrage_starting_with_swap fuel first_swap
              (all_but index swaps)) as [[a|]|e'|] eqn:Hs; cbn;
    try discriminate; try apply IH.
  intros [= <-]. eapply while_true_raises, Hs.
Qed.

Lemma for_each_start_past fuel swaps pool_addresses visited :
  Forall (start_returns fuel swaps pool_addresses) visited →
  ∀ all_arbitrages, ∃ all_arbitrages',
    ∀ todo,
      for_each_start fuel swaps pool_addresses (visited ++ todo) all_arbitrages
      = for_each_start fuel swaps pool_addresses todo all_arbitrages'.
Proof.
  induction 1 as [|[index first_swap] visited Hret _ IH]; intros acc.
  - exists acc. reflexivity.
  - cbn [app for_each_start]. case_decide as Hq; [|apply IH].
    destruct Hret as [Hin|[r Hr]]; [cbn in Hin; tauto|].
    cbn [fst snd] in Hr. rewrite Hr. destruct r; cbn; apply IH.
Qed.

Lemma for_each_start_returned fuel swaps pool_addresses todo :
  ∀ all_arbitrages result,
    for_each_start fuel swaps pool_addresses todo all_arbitrages = Return result →
    Forall (start_returns fuel swaps pool_addresses) todo.
Proof.
  induction todo as [|[index first_swap] todo IH]; intros acc result;
    [constructor|].
  cbn [for_each_start]. case_decide as Hq.
  - destruct (_get_arbitrage_starting_with_swap fuel first_swap
                (all_but index swaps)) as [r|e|] eqn:Hs; cbn; try discriminate.
    intros Hrest. constructor.
    + right. exists r. exact Hs.
    + destruct r; eapply IH; exact Hrest.
  - intros Hrest. constructor; [|eapply IH; exact Hrest].
    left. cbn. destruct (decide (Swap.from_address first_swap ∈ pool_addresses));
      tauto.
Qed.

Lemma enumerate_lookup {A} (l : list A) i x :
  l !! i = Some x → enumerate l !! i = Some (i, x).
Proof. intros H. unfold enumerate. rewrite list_lookup_imap, H. reflexivity. Qed.

Example fork_raises :
  _get_arbitrages_from_swaps 1 Sample.fork = Raise (RuntimeError "todo").
Proof. vm_compute. reflexivity. Qed.

(** The arbitrage found from the first start is lost with the rest. *)
Example ambiguity_discards_found_arbitrage :
  _get_arbitrage_starting_with_swap 1
    (Sample.hop1 "0xa" 100) (all_but 0 Sample.cycle_then_fork)
  = Return (Some (Sample.two_hop_arbitrage "0xa" 100 110))
  ∧ _get_arbitrages_from_swaps 1 Sample.cycle_then_fork
    = Raise (RuntimeError "todo").
Proof. split; vm_compute; reflexivity. Qed.

(** * Properties of the reconstructor *)

Lemma subscript_last {A} (l : list A) x :
  last l = Some x → subscript l (-1) = Return x.
Proof. intros H. unfold subscript. rewrite getitem_last, H. reflexivity. Qed.

Lemma subscript_first {A} (x : A) l : subscript (x :: l) 0 = Return x.
Proof. unfold subscript. rewrite getitem_first. reflexivity. Qed.

Lemma last_is_Some {A} (l : list A) : l ≠ [] → ∃ x, last l = Some x.
Proof.
  intros Hl. destruct (last l) as [x|] eqn:E; [eauto|].
  apply last_None in E. contradiction.
Qed.

(** Each parser returns, and builds a swap exactly from the last transfer
    into the pool and the one transfer from the pool to the recipient. *)
Lemma parse_cases p trace prior_transfers child_transfers :
  parse p trace prior_transfers child_transfers =
  match last (transfers_to_pool p trace prior_transfers child_transfers),
        transfers_from_pool_to_recipient p trace child_transfers with
  | Some transfer_in, [transfer_out] =>
      Return (Some (swap_from_transfers p trace transfer_in transfer_out))
  | _, _ => Return None
  end.
Proof.
  destruct p; unfold parse, _parse_uniswap_v2_swap, _parse_uniswap_v3_swap,
    transfers_to_pool, transfers_from_pool_to_recipient, recipient_address,
    recipient_field.
  all: match goal with
       | |- context [last ?l] =>
           destruct (decide (l = [])) as [-> | Hne];
           [reflexivity | destruct (last_is_Some l Hne) as [tin Hlast]]
       end.
  all: rewrite Hlast, decide_False
         by (intros Hlen; apply Hne, nil_length_inv, Hlen).
  all: match goal with
       | |- context [decide (length ?l ≠ 1)] =>
           destruct l as [|tout [|tout' out]]; cbn [length]
       end.
  all: try (rewrite decide_True by lia; reflexivity).
  all: rewrite decide_False by lia.
  all: rewrite (subscript_last _ _ Hlast), subscript_first; reflexivity.
Qed.

Lemma _build_swap_cases trace prior_transfers child_transfers :
  _build_swap trace prior_transfers child_transfers =
  match pattern_of trace with
  | Some p => parse p trace prior_transfers child_transfers
  | None => Return None
  end.
Proof. unfold _build_swap, pattern_of. repeat case_decide; reflexivity. Qed.

(** What a successful [_build_swap] tells about its arguments. *)
Lemma _build_swap_Some trace prior_transfers child_transfers swap :
  _build_swap trace prior_transfers child_transfers = Return (Some swap) →
  ∃ p transfer_in transfer_out,
    pattern_of trace = Some p
    ∧ last (transfers_to_pool p trace prior_transfers child_transfers)
      = Some transfer_in
    ∧ transfers_from_pool_to_recipient p trace child_transfers = [transfer_out]
    ∧ swap = swap_from_transfers p trace transfer_in transfer_out.
Proof.
  rewrite _build_swap_cases.
  destruct (pattern_of trace) as [p|]; [|discriminate].
  rewrite parse_cases.
  destruct (last _) as [tin|] eqn:Hin; [|discriminate].
  destruct (transfers_from_pool_to_recipient _ _ _) as [|tout [|]] eqn:Hout;
    try discriminate.
  intros [= <-]. exists p, tin, tout. auto.
Qed.

(** [_build_swap] never raises. *)
Lemma _build_swap_returns trace prior_transfers child_transfers :
  ∃ r, _build_swap trace prior_transfers child_transfers = Return r.
Proof.
  rewrite _build_swap_cases.
  destruct (pattern_of trace) as [p|]; [|eauto].
  rewrite parse_cases. repeat case_match; eauto.
Qed.

(** C5.  A swap trace whose [abi_name] is not a recognized one, or whose
    transfers into the pool are none, or whose transfers from the pool to the
    recipient are not exactly one, builds no swap and raises nothing; the
    scan of [_get_swaps] goes on with the swaps and transfers it had. *)
Theorem unmatched_swap_trace_is_skipped trace prior_transfers child_transfers :
  no_swap_evidence trace prior_transfers child_transfers →
  _build_swap trace prior_transfers child_transfers = Return None
  ∧ ∀ from_trace get_child_transfers remove_child_transfers
      traces rest swaps seen_transfers,
      ClassifiedTrace.classification trace = Classification.swap →
      prior_transfers = remove_child_transfers seen_transfers →
      child_transfers
      = remove_child_transfers
          (get_child_transfers (ClassifiedTrace.trace_address trace) traces) →
      for_each_trace from_trace get_child_transfers remove_child_transfers
        traces (trace :: rest) swaps seen_transfers
      = for_each_trace from_trace get_child_transfers remove_child_transfers
          traces rest swaps seen_transfers.
Proof.
  intros Hno.
  assert (Hbuild :
    _build_swap trace prior_transfers child_transfers = Return None).
  { rewrite _build_swap_cases. unfold no_swap_evidence in Hno.
    destruct (pattern_of trace) as [p|]; [|reflexivity].
    rewrite parse_cases. destruct Hno as [-> | Hlen]; [reflexivity|].
    destruct (last _); [|reflexivity].
    destruct (transfers_from_pool_to_recipient _ _ _) as [|tout [|]];
      cbn in Hlen; try reflexivity. lia. }
  split; [exact Hbuild|].
  intros from_trace gct rct traces rest swaps seen Hclass -> ->.
  cbn [for_each_trace]. rewrite Hclass.
  rewrite decide_False by discriminate. rewrite decide_True by reflexivity.
  rewrite Hbuild. reflexivity.
Qed.

Lemma unmatched_swap_trace_is_skipped_witness :
  _build_swap (Sample.v2_swap_call "0xa" [1%Z] "X" "P1" (Some "P2")) [] []
  = Return None
  ∧ ∀ from_trace get_child_transfers remove_child_transfers
      traces rest swaps seen_transfers,
      ClassifiedTrace.classification
        (Sample.v2_swap_call "0xa" [1%Z] "X" "P1" (Some "P2"))
      = Classification.swap →
      [] = remove_child_transfers seen_transfers →
      []
      = remove_child_transfers
          (get_child_transfers
             (ClassifiedTrace.trace_address
                (Sample.v2_swap_call "0xa" [1%Z] "X" "P1" (Some "P2")))
             traces) →
      for_each_trace from_trace get_child_transfers remove_child_transfers
        traces (Sample.v2_swap_call "0xa" [1%Z] "X" "P1" (Some "P2") :: rest)
        swaps seen_transfers
      = for_each_trace from_trace get_child_transfers remove_child_transfers
          traces rest swaps seen_transfers.
Proof.
  apply (unmatched_swap_trace_is_skipped
           (Sample.v2_swap_call "0xa" [1%Z] "X" "P1" (Some "P2")) [] []).
  vm_compute. left. reflexivity.
Defined.

(** An unrecognized [abi_name], and two transfers out of the pool to the
    recipient, give no swap either. *)
Example unknown_abi_gives_no_swap :
  _build_swap
    {| ClassifiedTrace.transaction_hash := "0xa";
       ClassifiedTrace.trace_address := [1%Z];
       ClassifiedTrace.classification := Classification.swap;
       ClassifiedTrace.abi_name := Some "SushiPair";
       ClassifiedTrace.from_address := "X";
       ClassifiedTrace.to_address := "P1";
       ClassifiedTrace.inputs := None |}
    [from_trace_spec (Sample.transfer_call "0xa" [0%Z] "A" "X" "P1" 100)]
    [from_trace_spec (Sample.transfer_call "0xa" [1%Z; 0%Z] "B" "P1" "X" 80)]
  = Return None.
Proof. vm_compute. reflexivity. Qed.

Example two_outputs_give_no_swap :
  _build_swap (Sample.v3_swap_call "0xa" [1%Z] "X" "P1" None) []
    [from_trace_spec (Sample.transfer_call "0xa" [1%Z; 0%Z] "A" "X" "P1" 100);
     from_trace_spec (Sample.transfer_call "0xa" [1%Z; 1%Z] "B" "P1" "X" 40);
     from_trace_spec (Sample.transfer_call "0xa" [1%Z; 2%Z] "B" "P1" "X" 40)]
  = Return None.
Proof. vm_compute. reflexivity. Qed.

(** C6.  A swap that is built comes from a recognized pattern; the recipient
    is the decoded [to] (pattern A) or [recipient] (pattern B) argument when
    the trace has one and the caller otherwise; the input transfer is the
    last of the transfers into the pool, the output transfer the only
    transfer from the pool to the recipient; the swap's input token and
    amount are the input transfer's, its output token and amount the output
    transfer's. *)
Theorem built_swap_tokens_come_from_transfers
    trace prior_transfers child_transfers swap :
  _build_swap trace prior_transfers child_transfers = Return (Some swap) →
  ∃ p transfer_in transfer_out,
    pattern_of trace = Some p
    ∧ (ClassifiedTrace.abi_name trace = Some UNISWAP_V2_PAIR_ABI_NAME
       ∧ p = PatternA ∧ recipient_field p = "to"
       ∨ ClassifiedTrace.abi_name trace = Some UNISWAP_V3_POOL_ABI_NAME
         ∧ p = PatternB ∧ recipient_field p = "recipient")
    ∧ (∀ inputs v,
         ClassifiedTrace.inputs trace = Some inputs →
         inputs !! recipient_field p = Some v →
         recipient_address p trace = v)
    ∧ (ClassifiedTrace.inputs trace = None
       ∨ (∃ inputs, ClassifiedTrace.inputs trace = Some inputs
                    ∧ inputs !! recipient_field p = None) →
       recipient_address p trace
       = Address (ClassifiedTrace.from_address trace))
    ∧ last (transfers_to_pool p trace prior_transfers child_transfers)
      = Some transfer_in
    ∧ transfers_from_pool_to_recipient p trace child_transfers = [transfer_out]
    ∧ Swap.token_in_address swap = Transfer.token_address transfer_in
    ∧ Swap.token_in_amount swap = Transfer.amount transfer_in
    ∧ Swap.token_out_address swap = Transfer.token_address transfer_out
    ∧ Swap.token_out_amount swap = Transfer.amount transfer_out.
Proof.
  intros Hbuild.
  destruct (_build_swap_Some _ _ _ _ Hbuild) as (p & tin & tout & Hp & Hin & Hout & ->).
  exists p, tin, tout. split; [exact Hp|]. split.
  { unfold pattern_of in Hp. repeat case_decide; simplify_eq; auto. }
  split.
  { intros inputs v Hinputs Hv. unfold recipient_address, recipient_of.
    rewrite Hinputs, Hv. reflexivity. }
  split.
  { intros [Hnone | (inputs & Hinputs & Hv)];
      unfold recipient_address, recipient_of.
    - rewrite Hnone. reflexivity.
    - rewrite Hinputs, Hv. reflexivity. }
  repeat split; assumption.
Qed.

Lemma built_swap_tokens_come_from_transfers_witness :
  ∃ p transfer_in transfer_out,
    pattern_of (Sample.v2_swap_call "0xa" [2%Z] "X" "P2" (Some "X")) = Some p
    ∧ (ClassifiedTrace.abi_name
         (Sample.v2_swap_call "0xa" [2%Z] "X" "P2" (Some "X"))
       = Some UNISWAP_V2_PAIR_ABI_NAME
       ∧ p = PatternA ∧ recipient_field p = "to"
       ∨ ClassifiedTrace.abi_name
           (Sample.v2_swap_call "0xa" [2%Z] "X" "P2" (Some "X"))
         = Some UNISWAP_V3_POOL_ABI_NAME
         ∧ p = PatternB ∧ recipient_field p = "recipient")
    ∧ (∀ inputs v,
         ClassifiedTrace.inputs
           (Sample.v2_swap_call "0xa" [2%Z] "X" "P2" (Some "X")) = Some inputs →
         inputs !! recipient_field p = Some v →
         recipient_address p
           (Sample.v2_swap_call "0xa" [2%Z] "X" "P2" (Some "X")) = v)
    ∧ (ClassifiedTrace.inputs
         (Sample.v2_swap_call "0xa" [2%Z] "X" "P2" (Some "X")) = None
       ∨ (∃ inputs,
            ClassifiedTrace.inputs
              (Sample.v2_swap_call "0xa" [2%Z] "X" "P2" (Some "X"))
            = Some inputs
            ∧ inputs !! recipient_field p = None) →
       recipient_address p (Sample.v2_swap_call "0xa" [2%Z] "X" "P2" (Some "X"))
       = Address
           (ClassifiedTrace.from_address
              (Sample.v2_swap_call "0xa" [2%Z] "X" "P2" (Some "X"))))
    ∧ last (transfers_to_pool p
              (Sample.v2_swap_call "0xa" [2%Z] "X" "P2" (Some "X"))
              [from_trace_spec
                 (Sample.transfer_call "0xa" [0%Z] "A" "X" "P1" 100);
               from_trace_spec
                 (Sample.transfer_call "0xa" [1%Z; 0%Z] "B" "P1" "P2" 80)]
              [from_trace_spec
                 (Sample.transfer_call "0xa" [2%Z; 0%Z] "A" "P2" "X" 110)])
      = Some transfer_in
    ∧ transfers_from_pool_to_recipient p
        (Sample.v2_swap_call "0xa" [2%Z] "X" "P2" (Some "X"))
        [from_trace_spec
           (Sample.transfer_call "0xa" [2%Z; 0%Z] "A" "P2" "X" 110)]
      = [transfer_out]
    ∧ Swap.token_in_address (Sample.hop2 "0xa" 110)
      = Transfer.token_address transfer_in
    ∧ Swap.token_in_amount (Sample.hop2 "0xa" 110) = Transfer.amount transfer_in
    ∧ Swap.token_out_address (Sample.hop2 "0xa" 110)
      = Transfer.token_address transfer_out
    ∧ Swap.token_out_amount (Sample.hop2 "0xa" 110)
      = Transfer.amount transfer_out.
Proof.
  apply (built_swap_tokens_come_from_transfers
           (Sample.v2_swap_call "0xa" [2%Z] "X" "P2" (Some "X"))
           [from_trace_spec (Sample.transfer_call "0xa" [0%Z] "A" "X" "P1" 100);
            from_trace_spec
              (Sample.transfer_call "0xa" [1%Z; 0%Z] "B" "P1" "P2" 80)]
           [from_trace_spec
              (Sample.transfer_call "0xa" [2%Z; 0%Z] "A" "P2" "X" 110)]
           (Sample.hop2 "0xa" 110)).
  vm_compute. reflexivity.
Defined.

(** C10.  The account a built swap comes from is the sender of the input
    transfer (the last transfer into the pool), and the account it goes to is
    the receiver of the output transfer. *)
Theorem built_swap_parties_come_from_transfers
    trace prior_transfers child_transfers swap :
  _build_swap trace prior_transfers child_transfers = Return (Some swap) →
  ∃ p transfer_in transfer_out,
    pattern_of trace = Some p
    ∧ last (transfers_to_pool p trace prior_transfers child_transfers)
      = Some transfer_in
    ∧ transfers_from_pool_to_recipient p trace child_transfers = [transfer_out]
    ∧ Swap.from_address swap = Transfer.from_address transfer_in
    ∧ Swap.to_address swap = Transfer.to_address transfer_out.
Proof.
  intros Hbuild.
  destruct (_build_swap_Some _ _ _ _ Hbuild) as (p & tin & tout & Hp & Hin & Hout & ->).
  exists p, tin, tout. auto.
Qed.

Lemma built_swap_parties_come_from_transfers_witness :
  ∃ p transfer_in transfer_out,
    pattern_of (Sample.v3_swap_call "0xa" [1%Z] "R" "P1" (Some "P2")) = Some p
    ∧ last (transfers_to_pool p
              (Sample.v3_swap_call "0xa" [1%Z] "R" "P1" (Some "P2")) []
              [from_trace_spec
                 (Sample.transfer_call "0xa" [1%Z; 0%Z] "B" "P1" "P2" 80);
               from_trace_spec
                 (Sample.transfer_call "0xa" [1%Z; 1%Z] "A" "X" "P1" 100)])
      = Some transfer_in
    ∧ transfers_from_pool_to_recipient p
        (Sample.v3_swap_call "0xa" [1%Z] "R" "P1" (Some "P2"))
        [from_trace_spec
           (Sample.transfer_call "0xa" [1%Z; 0%Z] "B" "P1" "P2" 80);
         from_trace_spec
           (Sample.transfer_call "0xa" [1%Z; 1%Z] "A" "X" "P1" 100)]
      = [transfer_out]
    ∧ Swap.from_address
        (Sample.swap_v3_at "0xa" [1%Z] "P1" "X" "P2" "A" 100 "B" 80)
      = Transfer.from_address transfer_in
    ∧ Swap.to_address
        (Sample.swap_v3_at "0xa" [1%Z] "P1" "X" "P2" "A" 100 "B" 80)
      = Transfer.to_address transfer_out.
Proof.
  apply (built_swap_parties_come_from_transfers
           (Sample.v3_swap_call "0xa" [1%Z] "R" "P1" (Some "P2")) []
           [from_trace_spec
              (Sample.transfer_call "0xa" [1%Z; 0%Z] "B" "P1" "P2" 80);
            from_trace_spec
              (Sample.transfer_call "0xa" [1%Z; 1%Z] "A" "X" "P1" 100)]
           (Sample.swap_v3_at "0xa" [1%Z] "P1" "X" "P2" "A" 100 "B" 80)).
  vm_compute. reflexivity.
Defined.

(** The swap's parties are not the call's: router [R] calls pool [P1], the
    tokens come from [X] and go to [P2]. *)
Example swap_parties_are_not_the_callers :
  ∃ swap,
    _build_swap (Sample.v3_swap_call "0xa" [1%Z] "R" "P1" (Some "P2")) []
      [from_trace_spec (Sample.transfer_call "0xa" [1%Z; 0%Z] "B" "P1" "P2" 80);
       from_trace_spec (Sample.transfer_call "0xa" [1%Z; 1%Z] "A" "X" "P1" 100)]
    = Return (Some swap)
    ∧ Swap.from_address swap = "X" ∧ Swap.to_address swap = "P2"
    ∧ Swap.from_address swap
      ≠ ClassifiedTrace.from_address
          (Sample.v3_swap_call "0xa" [1%Z] "R" "P1" (Some "P2"))
    ∧ Swap.to_address swap
      ≠ ClassifiedTrace.to_address
          (Sample.v3_swap_call "0xa" [1%Z] "R" "P1" (Some "P2")).
Proof. eexists. split; [vm_compute; reflexivity|]. repeat split; discriminate. Qed.

(** * Sorting and grouping *)

Section sorted_groups.
Context {A K : Type} `{EqDecision K} (ltb : K → K → bool) (key : A → K).
Hypothesis ltb_irrefl : ∀ a, ltb a a = false.
Hypothesis ltb_trans : ∀ a b c, ltb a b = true → ltb b c = true → ltb a c = true.
Hypothesis ltb_connected : ∀ a b, ltb a b = false → ltb b a = false → a = b.

Lemma ltb_asym a b : ltb a b = true → ltb b a = false.
Proof.
  intros Hab. destruct (ltb b a) eqn:Hba; [|reflexivity].
  rewrite <- (ltb_irrefl a). symmetry. eauto.
Qed.

Lemma not_after_trans x y z :
  not_after ltb key x y → not_after ltb key y z → not_after ltb key x z.
Proof.
  unfold not_after. intros Hxy Hyz.
  destruct (ltb (key z) (key x)) eqn:Hzx; [|reflexivity].
  destruct (ltb (key y) (key z)) eqn:Hyz'.
  - rewrite <- Hxy. symmetry. eauto.
  - rewrite (ltb_connected _ _ Hyz Hyz') in Hzx. congruence.
Qed.

Lemma sorted_cons x l :
  sorted ltb key (x :: l) = insert_sorted ltb key x (sorted ltb key l).
Proof. reflexivity. Qed.

Lemma elem_of_insert_sorted z x l :
  z ∈ insert_sorted ltb key x l ↔ z = x ∨ z ∈ l.
Proof.
  induction l as [|y l IH]; cbn.
  - rewrite list_elem_of_singleton, elem_of_nil. tauto.
  - destruct (ltb (key y) (key x)); rewrite !elem_of_cons; [rewrite IH|];
      tauto.
Qed.

Lemma insert_sorted_ascending x l :
  StronglySorted (not_after ltb key) l →
  StronglySorted (not_after ltb key) (insert_sorted ltb key x l).
Proof.
  induction 1 as [|y l Hl IH Hy]; cbn.
  - repeat constructor.
  - destruct (ltb (key y) (key x)) eqn:Hyx.
    + constructor; [exact IH|].
      rewrite Forall_forall. intros z [-> | Hz]%elem_of_insert_sorted.
      * apply ltb_asym, Hyx.
      * rewrite Forall_forall in Hy. auto.
    + constructor; [constructor; assumption|].
      constructor; [exact Hyx|].
      rewrite Forall_forall in Hy |- *. intros z Hz.
      apply not_after_trans with y; [exact Hyx|auto].
Qed.

Lemma sorted_ascending l :
  StronglySorted (not_after ltb key) (sorted ltb key l).
Proof.
  induction l as [|x l IH]; [constructor|].
  rewrite sorted_cons. apply insert_sorted_ascending, IH.
Qed.

(** [sorted] is stable: the elements with a given key keep their order. *)
Lemma filter_insert_sorted k x l :
  filter (λ y, key y = k) (insert_sorted ltb key x l)
  = filter (λ y, key y = k) (x :: l).
Proof.
  induction l as [|y l IH]; cbn [insert_sorted]; [reflexivity|].
  destruct (ltb (key y) (key x)) eqn:Hyx; [|reflexivity].
  rewrite (filter_cons _ y), IH, !(filter_cons _ x), (filter_cons _ y).
  repeat case_decide; try reflexivity.
  match goal with
  | Hy : key y = k, Hx : key x = k |- _ =>
      rewrite Hy, Hx, ltb_irrefl in Hyx; discriminate
  end.
Qed.

Lemma filter_sorted k l :
  filter (λ y, key y = k) (sorted ltb key l) = filter (λ y, key y = k) l.
Proof.
  induction l as [|x l IH]; [reflexivity|].
  rewrite sorted_cons, filter_insert_sorted, !(filter_cons _ x), IH.
  reflexivity.
Qed.

Lemma elem_of_keys_filter k (l : list A) :
  k ∈ key <$> l ↔ filter (λ y, key y = k) l ≠ [].
Proof.
  rewrite list_elem_of_fmap. split.
  - intros (x & -> & Hx) Hnil.
    eapply (filter_nil_not_elem_of _ l x); [exact Hnil|reflexivity|exact Hx].
  - intros Hne. destruct (filter _ l) as [|x f] eqn:Hf; [contradiction|].
    assert (Hx : x ∈ filter (λ y, key y = k) l) by (rewrite Hf; left).
    apply list_elem_of_filter in Hx as [Hk Hx]. eauto.
Qed.

Lemma groupby_cons x l :
  groupby key (x :: l) =
  match groupby key l with
  | (k, g) :: groups =>
      if decide (key x = k) then (k, x :: g) :: groups
      else (key x, [x]) :: (k, g) :: groups
  | [] => [(key x, [x])]
  end.
Proof. reflexivity. Qed.

(** On a list in ascending order of keys, [groupby] gives one group per key,
    the keys in strictly ascending order, each group holding the elements of
    that key. *)
Lemma groupby_ascending l :
  StronglySorted (not_after ltb key) l →
  ∃ keys,
    StronglySorted (λ a b, ltb a b = true) keys
    ∧ (∀ k, k ∈ keys ↔ k ∈ key <$> l)
    ∧ head keys = key <$> head l
    ∧ groupby key l = (λ k, (k, filter (λ y, key y = k) l)) <$> keys.
Proof.
  induction 1 as [|x l Hl IH Hx].
  - exists []. repeat split; try constructor; auto.
  - destruct IH as (keys & Hsorted & Hkeys & Hhead & Hgroups).
    rewrite Forall_forall in Hx.
    assert (Hfresh : ∀ k, k ∈ keys → k ≠ key x → ltb (key x) k = true).
    { intros k (z & -> & Hz)%Hkeys%list_elem_of_fmap Hne.
      destruct (ltb (key x) (key z)) eqn:Hxz; [reflexivity|].
      destruct Hne. apply ltb_connected; [apply Hx, Hz|exact Hxz]. }
    destruct l as [|y l].
    + assert (keys = []) as ->.
      { apply elem_of_nil_inv. intros k Hk%Hkeys. cbn in Hk.
        exact (not_elem_of_nil _ Hk). }
      exists [key x]. split; [repeat constructor|].
      split; [intros k; reflexivity|]. split; [reflexivity|].
      cbn [groupby fmap list_fmap].
      rewrite (filter_cons _ x), decide_True by reflexivity. reflexivity.
    + destruct keys as [|k keys]; [discriminate|].
      cbn in Hhead. injection Hhead as ->.
      apply StronglySorted_cons in Hsorted as Hsorted'.
      destruct Hsorted' as [Hk Hsorted'].
      rewrite Forall_forall in Hk.
      rewrite groupby_cons, Hgroups. cbn [fmap list_fmap].
      destruct (decide (key x = key y)) as [Hxy|Hxy].
      * exists (key y :: keys). split; [exact Hsorted|].
        split; [|split; [cbn; congruence|]].
        { intros k. rewrite Hkeys. cbn. rewrite !elem_of_cons. intuition congruence. }
        cbn [fmap list_fmap]. f_equal.
        { rewrite (filter_cons _ x), decide_True by exact Hxy. reflexivity. }
        apply Forall_fmap_ext_1, Forall_forall. intros k Hkin.
        rewrite (filter_cons _ x), decide_False; [reflexivity|].
        intros Heq. specialize (Hk k Hkin).
        rewrite <- Heq, Hxy, ltb_irrefl in Hk. discriminate.
      * exists (key x :: key y :: keys). split.
        { constructor; [exact Hsorted|]. apply Forall_forall.
          intros k Hkin. apply Hfresh; [exact Hkin|].
          intros ->. rewrite elem_of_cons in Hkin.
          destruct Hkin as [Heq | Hkin]; [congruence|].
          specialize (Hk _ Hkin). specialize (Hx y ltac:(left)).
          unfold not_after in Hx. congruence. }
        split; [|split; [reflexivity|]].
        { intros k. rewrite (elem_of_cons _ k (key x)), Hkeys. cbn.
          rewrite !elem_of_cons. tauto. }
        cbn [fmap list_fmap]. f_equal.
        { f_equal. rewrite (filter_cons _ x), decide_True by reflexivity.
          f_equal. destruct (filter _ (y :: l)) as [|z f] eqn:Hf; [reflexivity|].
          assert (Hz : z ∈ filter (λ y0, key y0 = key x) (y :: l))
            by (rewrite Hf; left).
          apply list_elem_of_filter in Hz as [Hzk Hz].
          assert (Hin : key x ∈ key y :: keys).
          { apply Hkeys. rewrite <- Hzk. apply list_elem_of_fmap_2, Hz. }
          rewrite elem_of_cons in Hin. destruct Hin as [Heq | Hin]; [congruence|].
          specialize (Hk _ Hin). specialize (Hx y ltac:(left)).
          unfold not_after in Hx. congruence. }
        assert (Hsame : ∀ k, k ∈ key y :: keys →
                  filter (λ z, key z = k) (x :: y :: l)
                  = filter (λ z, key z = k) (y :: l)).
        { intros k Hkin.
          rewrite (filter_cons _ x), decide_False; [reflexivity|].
          intros Heq. pose proof (Hfresh k Hkin) as Hlt.
          destruct (decide (k = key x)) as [->|Hne]; [|congruence].
          assert (Hin := Hkin). rewrite elem_of_cons in Hin.
          destruct Hin as [Heq' | Hin]; [congruence|].
          specialize (Hk _ Hin). specialize (Hx y ltac:(left)).
          unfold not_after in Hx. congruence. }
        f_equal.
        { rewrite Hsame by left. reflexivity. }
        apply Forall_fmap_ext_1, Forall_forall. intros k Hkin.
        rewrite Hsame by (right; exact Hkin). reflexivity.
Qed.

(** [groupby] after [sorted]: one group per key, by ascending key, each the
    elements of that key in their original order. *)
Lemma groupby_sorted l :
  ∃ keys,
    StronglySorted (λ a b, ltb a b = true) keys
    ∧ (∀ k, k ∈ keys ↔ k ∈ key <$> l)
    ∧ groupby key (sorted ltb key l)
      = (λ k, (k, filter (λ y, key y = k) l)) <$> keys.
Proof.
  destruct (groupby_ascending _ (sorted_ascending l))
    as (keys & Hsorted & Hkeys & _ & Hgroups).
  exists keys. split; [exact Hsorted|]. split.
  - intros k. rewrite Hkeys, !elem_of_keys_filter, filter_sorted. reflexivity.
  - rewrite Hgroups. apply Forall_fmap_ext_1, Forall_forall. intros k _.
    rewrite filter_sorted. reflexivity.
Qed.
End sorted_groups.

(** Python's [<] on strings is a strict total order. *)
Lemma string_compare_refl s : String.compare s s = Eq.
Proof.
  pose proof (String.compare_antisym s s) as H.
  destruct (String.compare s s); cbn in H; congruence.
Qed.

Lemma string_ltb_irrefl s : String.ltb s s = false.
Proof. unfold String.ltb. rewrite string_compare_refl. reflexivity. Qed.

Lemma string_ltb_not_leb a b : String.ltb a b = negb (String.leb b a).
Proof.
  unfold String.ltb, String.leb. rewrite (String.compare_antisym a b).
  destruct (String.compare b a); reflexivity.
Qed.

Lemma string_ltb_connected a b :
  String.ltb a b = false → String.ltb b a = false → a = b.
Proof.
  rewrite !string_ltb_not_leb, !negb_false_iff.
  intros Hba Hab. apply String.leb_antisym; assumption.
Qed.

Lemma string_ltb_trans a b c :
  String.ltb a b = true → String.ltb b c = true → String.ltb a c = true.
Proof.
  intros Hab Hbc.
  destruct (String.ltb a c) eqn:Hac; [reflexivity|].
  assert (Hca : String.le c a).
  { unfold String.le. rewrite string_ltb_not_leb, negb_false_iff in Hac.
    rewrite Hac. exact I. }
  assert (Hab' : String.le a b).
  { unfold String.le. destruct (String.leb_total a b) as [H|H]; [rewrite H; exact I|].
    rewrite string_ltb_not_leb, H in Hab. discriminate. }
  assert (Hcb : String.le c b) by (etrans; eassumption).
  rewrite string_ltb_not_leb in Hbc. unfold String.le in Hcb.
  destruct (String.leb c b); [discriminate|contradiction].
Qed.

(** * Properties of the per-transaction stage and of the entry point *)

Section reconstruct_properties.
Variable from_trace : ClassifiedTrace.t → Transfer.t.
Variable get_child_transfers : list Z → list ClassifiedTrace.t → list Transfer.t.
Variable remove_child_transfers : list Transfer.t → list Transfer.t.

Local Abbreviation for_each_trace' :=
  (for_each_trace from_trace get_child_transfers remove_child_transfers).
Local Abbreviation _get_swaps' :=
  (_get_swaps from_trace get_child_transfers remove_child_transfers).
Local Abbreviation _get_arbitrages_for_transaction' :=
  (_get_arbitrages_for_transaction
     from_trace get_child_transfers remove_child_transfers).
Local Abbreviation for_each_transaction' :=
  (for_each_transaction from_trace get_child_transfers remove_child_transfers).
Local Abbreviation get_arbitrages' :=
  (get_arbitrages from_trace get_child_transfers remove_child_transfers).

(** Reconstruction returns a list of swaps for every list of traces. *)
Lemma for_each_trace_returns traces ordered_traces :
  ∀ swaps prior_transfers,
    ∃ result,
      for_each_trace' traces ordered_traces swaps prior_transfers
      = Return result.
Proof.
  induction ordered_traces as [|trace rest IH]; intros swaps prior; cbn.
  - eauto.
  - repeat case_decide; auto.
    destruct (_build_swap_returns trace (remove_child_transfers prior)
                (remove_child_transfers
                   (get_child_transfers
                      (ClassifiedTrace.trace_address trace) traces)))
      as [[s|] ->]; cbn; auto.
Qed.

Lemma _get_swaps_returns traces : ∃ swaps, _get_swaps' traces = Return swaps.
Proof. apply for_each_trace_returns. Qed.

(** C7.  When the traces of a transaction reconstruct to fewer than two
    swaps, the per-transaction stage returns the empty list without running
    the detector; with two swaps or more its outcome is the detector's. *)
Theorem fewer_than_two_swaps_no_detection fuel traces swaps :
  _get_swaps' traces = Return swaps →
  (length swaps < 2 →
   _get_arbitrages_for_transaction' fuel traces = Return [])
  ∧ (2 ≤ length swaps →
     _get_arbitrages_for_transaction' fuel traces
     = _get_arbitrages_from_swaps fuel swaps).
Proof.
  intros Hswaps. unfold _get_arbitrages_for_transaction.
  rewrite Hswaps. cbn. split; intros Hlen.
  - rewrite decide_False by lia. reflexivity.
  - rewrite decide_True by lia. reflexivity.
Qed.

(** The loop over the transactions concatenates what each one gives. *)
Lemma for_each_transaction_concat fuel groups results :
  Forall2 (λ group arbitrages,
             _get_arbitrages_for_transaction' fuel group.2 = Return arbitrages)
          groups results →
  ∀ all_arbitrages,
    for_each_transaction' fuel groups all_arbitrages
    = Return (all_arbitrages ++ concat results).
Proof.
  induction 1 as [|[h g] r groups results Hr _ IH]; intros acc;
    cbn [for_each_transaction concat].
  - rewrite app_nil_r. reflexivity.
  - cbn [snd] in Hr. rewrite Hr. cbn [mbind outcome_bind].
    rewrite IH, app_assoc. reflexivity.
Qed.

(** C9, as the code has it.  [get_arbitrages] runs the per-transaction stage
    on the traces of each transaction hash, each partition holding that
    transaction's traces in input order, and goes through the partitions by
    ascending transaction hash; when every partition returns, the result is
    the concatenation of the partitions' results in that order. *)
Theorem get_arbitrages_by_ascending_hash fuel traces :
  ∃ hashes,
    StronglySorted (λ a b, String.ltb a b = true) hashes
    ∧ (∀ h, h ∈ hashes ↔ h ∈ ClassifiedTrace.transaction_hash <$> traces)
    ∧ get_arbitrages' fuel traces
      = for_each_transaction' fuel (partition_of traces <$> hashes) []
    ∧ ∀ results,
        Forall2 (λ h arbitrages,
                   _get_arbitrages_for_transaction' fuel (partition_of traces h).2
                   = Return arbitrages)
                hashes results →
        get_arbitrages' fuel traces = Return (concat results).
Proof.
  destruct (groupby_sorted String.ltb ClassifiedTrace.transaction_hash
              string_ltb_irrefl string_ltb_trans string_ltb_connected traces)
    as (hashes & Hsorted & Hin & Hgroups).
  exists hashes. split; [exact Hsorted|]. split; [exact Hin|].
  assert (Heq : get_arbitrages' fuel traces
                = for_each_transaction' fuel (partition_of traces <$> hashes) []).
  { unfold get_arbitrages. rewrite Hgroups. reflexivity. }
  split; [exact Heq|].
  intros results Hresults. rewrite Heq.
  rewrite (for_each_transaction_concat fuel _ results); [reflexivity|].
  apply Forall2_fmap_l. exact Hresults.
Qed.
End reconstruct_properties.

Lemma fewer_than_two_swaps_no_detection_witness :
  (length [Sample.hop1 "0xa" 100] < 2 →
   _get_arbitrages_for_transaction_spec 0 (take 3 (Sample.two_hop "0xa" 100 110))
   = Return [])
  ∧ (2 ≤ length [Sample.hop1 "0xa" 100] →
     _get_arbitrages_for_transaction_spec 0 (take 3 (Sample.two_hop "0xa" 100 110))
     = _get_arbitrages_from_swaps 0 [Sample.hop1 "0xa" 100]).
Proof.
  apply (fewer_than_two_swaps_no_detection
           from_trace_spec get_child_transfers_spec remove_child_transfers_spec
           0 (take 3 (Sample.two_hop "0xa" 100 110)) [Sample.hop1 "0xa" 100]).
  vm_compute. reflexivity.
Defined.

Example single_swap_gives_no_arbitrage :
  _get_arbitrages_for_transaction_spec 0 (take 3 (Sample.two_hop "0xa" 100 110))
  = Return [].
Proof. vm_compute. reflexivity. Qed.

Example no_swap_gives_no_arbitrage :
  _get_arbitrages_for_transaction_spec 0 [] = Return [].
Proof. vm_compute. reflexivity. Qed.

(** C9, as the specification words it, fails: the traces of transaction
    [0xb] come first in the input, but the arbitrage of [0xa] comes first in
    the result. *)
Lemma get_arbitrages_not_in_encounter_order :
  get_arbitrages_spec 1
    (Sample.two_hop "0xb" 100 110 ++ Sample.two_hop "0xa" 100 90)
  = Return [Sample.two_hop_arbitrage "0xa" 100 90;
            Sample.two_hop_arbitrage "0xb" 100 110]
  ∧ get_arbitrages_in_encounter_order
      from_trace_spec get_child_transfers_spec remove_child_transfers_spec 1
      (Sample.two_hop "0xb" 100 110 ++ Sample.two_hop "0xa" 100 90)
    = Return [Sample.two_hop_arbitrage "0xb" 100 110;
              Sample.two_hop_arbitrage "0xa" 100 90]
  ∧ get_arbitrages_spec 1
      (Sample.two_hop "0xb" 100 110 ++ Sample.two_hop "0xa" 100 90)
    ≠ get_arbitrages_in_encounter_order
        from_trace_spec get_child_transfers_spec remove_child_transfers_spec 1
        (Sample.two_hop "0xb" 100 110 ++ Sample.two_hop "0xa" 100 90).
Proof.
  split; [vm_compute; reflexivity|]. split; [vm_compute; reflexivity|].
  vm_compute. discriminate.
Qed.

(** * The loop ends early or never *)

Lemma loop_body_Continue_inv start_swap other_swaps st st' :
  loop_body start_swap other_swaps st = Continue st' →
  ∃ swap,
    swaps_from_current_address other_swaps st = [swap]
    ∧ ¬ closes start_swap swap
    ∧ st' = {| swap_path := swap_path st ++ [swap];
               current_address := Swap.to_address swap;
               current_token := Swap.token_out_address swap |}.
Proof.
  rewrite loop_body_cases.
  destruct (swaps_from_current_address other_swaps st) as [|x [|y l]];
    try discriminate.
  case_decide as Hc; [discriminate|]. intros [= <-]. eauto.
Qed.

Lemma loop_body_Break_Some_inv start_swap other_swaps st arbitrage :
  loop_body start_swap other_swaps st = Break (Some arbitrage) →
  ∃ swap,
    swaps_from_current_address other_swaps st = [swap]
    ∧ closes start_swap swap
    ∧ arbitrage = {|
        Arbitrage.swaps := swap_path st ++ [swap];
        Arbitrage.account_address := Swap.from_address start_swap;
        Arbitrage.profit_token_address := Swap.token_in_address start_swap;
        Arbitrage.start_amount := Swap.token_in_amount start_swap;
        Arbitrage.end_amount := Swap.token_out_amount swap;
        Arbitrage.profit_amount :=
          (Swap.token_out_amount swap - Swap.token_in_amount start_swap)%Z |}.
Proof.
  rewrite loop_body_cases.
  destruct (swaps_from_current_address other_swaps st) as [|x [|y l]];
    try discriminate.
  case_decide as Hc; [|discriminate]. intros [= <-]. eauto.
Qed.

Lemma loop_body_Throw_inv start_swap other_swaps st e :
  loop_body start_swap other_swaps st = Throw e →
  e = RuntimeError "todo"
  ∧ 1 < length (swaps_from_current_address other_swaps st).
Proof.
  rewrite loop_body_cases.
  destruct (swaps_from_current_address other_swaps st) as [|x [|y l]];
    try case_decide; try discriminate.
  intros [= <-]. split; [reflexivity|cbn; lia].
Qed.

Lemma candidates_same_key other_swaps st st' :
  same_key st st' →
  swaps_from_current_address other_swaps st
  = swaps_from_current_address other_swaps st'.
Proof.
  intros [Ha Ht]. unfold swaps_from_current_address.
  apply list_filter_iff. intros swap. rewrite Ha, Ht. reflexivity.
Qed.

Lemma loop_body_same_key start_swap other_swaps st1 st2 st1' :
  same_key st1 st2 →
  loop_body start_swap other_swaps st1 = Continue st1' →
  ∃ st2', loop_body start_swap other_swaps st2 = Continue st2'
          ∧ same_key st1' st2'.
Proof.
  intros Hkey (swap & Hc & Hopen & ->)%loop_body_Continue_inv.
  rewrite (candidates_same_key _ _ _ Hkey) in Hc.
  rewrite loop_body_cases, Hc. rewrite decide_False by exact Hopen.
  eexists. split; [reflexivity|]. split; reflexivity.
Qed.

Lemma after_iterations_add a b start_swap other_swaps st st' :
  after_iterations a start_swap other_swaps st = Some st' →
  after_iterations (a + b) start_swap other_swaps st
  = after_iterations b start_swap other_swaps st'.
Proof.
  revert st. induction a as [|a IH]; intros st; cbn.
  - intros [= ->]. reflexivity.
  - destruct (loop_body start_swap other_swaps st); try discriminate. apply IH.
Qed.

Lemma after_iterations_split a b start_swap other_swaps st st'' :
  after_iterations (a + b) start_swap other_swaps st = Some st'' →
  ∃ st', after_iterations a start_swap other_swaps st = Some st'
         ∧ after_iterations b start_swap other_swaps st' = Some st''.
Proof.
  revert st. induction a as [|a IH]; intros st; cbn.
  - eauto.
  - destruct (loop_body start_swap other_swaps st); try discriminate. apply IH.
Qed.

Lemma goes_round_le n m start_swap other_swaps st :
  goes_round m start_swap other_swaps st → n ≤ m →
  goes_round n start_swap other_swaps st.
Proof.
  intros [st'' Hm] Hle. replace m with (n + (m - n)) in Hm by lia.
  apply after_iterations_split in Hm as (st' & Hn & _).
  exists st'. exact Hn.
Qed.

Lemma goes_round_same_key n start_swap other_swaps st1 st2 :
  same_key st1 st2 →
  goes_round n start_swap other_swaps st1 →
  goes_round n start_swap other_swaps st2.
Proof.
  revert st1 st2. induction n as [|n IH]; intros st1 st2 Hkey [st' Hn].
  - eexists. reflexivity.
  - cbn in Hn. unfold goes_round. cbn.
    destruct (loop_body start_swap other_swaps st1) as [st1'| |] eqn:Hbody;
      try discriminate.
    destruct (loop_body_same_key _ _ _ _ _ Hkey Hbody) as (st2' & -> & Hkey').
    eapply IH; [exact Hkey'|]. exists st'. exact Hn.
Qed.

(** A loop that comes back to an address and token it has been at goes
    round for ever. *)
Lemma goes_round_for_ever p start_swap other_swaps st st' :
  after_iterations p start_swap other_swaps st = Some st' →
  0 < p → same_key st st' →
  ∀ n, goes_round n start_swap other_swaps st.
Proof.
  intros Hp Hpos Hkey n.
  induction (lt_wf n) as [n _ IH].
  destruct (decide (n ≤ p)) as [Hle|Hgt].
  - eapply goes_round_le; [|exact Hle]. eexists. exact Hp.
  - replace n with (p + (n - p)) by lia. unfold goes_round.
    rewrite (after_iterations_add _ _ _ _ _ _ Hp).
    apply (goes_round_same_key _ _ _ st); [exact Hkey|].
    apply IH. lia.
Qed.

(** What [n] rounds leave behind: [n] swaps of [other_swaps] appended to the
    path, none of which closes the cycle, the last of which set the current
    address and token. *)
Lemma after_iterations_path n start_swap other_swaps st st' :
  after_iterations n start_swap other_swaps st = Some st' →
  ∃ appended,
    swap_path st' = swap_path st ++ appended
    ∧ length appended = n
    ∧ Forall (λ swap, swap ∈ other_swaps ∧ ¬ closes start_swap swap) appended
    ∧ (0 < n →
       ∃ final, last appended = Some final
                ∧ current_address st' = Swap.to_address final
                ∧ current_token st' = Swap.token_out_address final).
Proof.
  revert st. induction n as [|n IH]; intros st; cbn.
  - intros [= <-]. exists []. rewrite app_nil_r.
    repeat split; [constructor|lia].
  - destruct (loop_body start_swap other_swaps st) as [st1| |] eqn:Hbody;
      try discriminate.
    intros Hn.
    apply loop_body_Continue_inv in Hbody as (swap & Hc & Hopen & ->).
    destruct (IH _ Hn) as (rest & Hpath & Hlen & Hall & Hlast).
    cbn in Hpath. exists (swap :: rest).
    split; [rewrite Hpath, <- app_assoc; reflexivity|].
    split; [cbn; lia|]. split.
    + constructor; [|exact Hall]. split; [|exact Hopen].
      assert (Hin : swap ∈ swaps_from_current_address other_swaps st)
        by (rewrite Hc; left).
      unfold swaps_from_current_address in Hin.
      apply list_elem_of_filter in Hin. tauto.
    + intros _. destruct n as [|n].
      * cbn in Hn. injection Hn as <-.
        destruct rest; [|discriminate]. exists swap. auto.
      * destruct Hlast as (final & Hfinal & Ha & Ht); [lia|].
        exists final. split; [|auto].
        destruct rest; [discriminate|]. exact Hfinal.
Qed.

Lemma not_NoDup_split {A} `{EqDecision A} (l : list A) :
  ¬ NoDup l → ∃ l1 x l2 l3, l = l1 ++ x :: l2 ++ x :: l3.
Proof.
  induction l as [|x l IH]; intros Hdup.
  - destruct Hdup. constructor.
  - destruct (decide (x ∈ l)) as [Hin|Hnotin].
    + apply list_elem_of_split in Hin as (l2 & l3 & ->).
      exists [], x, l2, l3. reflexivity.
    + destruct IH as (l1 & y & l2 & l3 & ->).
      { intros Hl. apply Hdup. constructor; assumption. }
      exists (x :: l1), y, l2, l3. reflexivity.
Qed.

(** A swap appended twice while the loop goes round means the loop goes
    round for ever. *)
Lemma repeated_swap_for_ever n start_swap other_swaps st st' appended :
  after_iterations n start_swap other_swaps st = Some st' →
  swap_path st' = swap_path st ++ appended →
  ¬ NoDup appended →
  ∀ k, goes_round k start_swap other_swaps st.
Proof.
  intros Hn Hpath Hdup.
  destruct (after_iterations_path _ _ _ _ _ Hn) as (ms & Hms & Hlen & _ & _).
  rewrite Hpath in Hms. apply app_inv_head in Hms as <-.
  apply not_NoDup_split in Hdup as (l1 & x & l2 & l3 & ->).
  rewrite !length_app in Hlen. cbn in Hlen. rewrite length_app in Hlen.
  cbn in Hlen.
  replace n with (S (length l1) + (S (length l2) + length l3)) in Hn by lia.
  apply after_iterations_split in Hn as (st1 & H1 & Hn).
  apply after_iterations_split in Hn as (st2 & H2 & H3).
  destruct (after_iterations_path _ _ _ _ _ H1) as (m1 & Hp1 & Hl1 & _ & Hk1).
  destruct (after_iterations_path _ _ _ _ _ H2) as (m2 & Hp2 & Hl2 & _ & Hk2).
  destruct (after_iterations_path _ _ _ _ _ H3) as (m3 & Hp3 & Hl3 & _ & _).
  rewrite Hp3, Hp2, Hp1, <- !app_assoc in Hpath.
  apply app_inv_head in Hpath.
  change (l1 ++ x :: l2 ++ x :: l3)
    with (l1 ++ [x] ++ l2 ++ [x] ++ l3) in Hpath.
  rewrite (app_assoc l1), (app_assoc l2) in Hpath.
  apply app_inj_1 in Hpath as [E1 Hpath];
    [|rewrite length_app; cbn; lia].
  apply app_inj_1 in Hpath as [E2 _];
    [|rewrite length_app; cbn; lia].
  destruct Hk1 as (f1 & Hf1 & Ha1 & Ht1); [lia|].
  destruct Hk2 as (f2 & Hf2 & Ha2 & Ht2); [lia|].
  rewrite E1, last_snoc in Hf1. rewrite E2, last_snoc in Hf2.
  injection Hf1 as <-. injection Hf2 as <-.
  assert (Hever : ∀ k, goes_round k start_swap other_swaps st1).
  { apply (goes_round_for_ever (S (length l2)) _ _ _ st2); [exact H2|lia|].
    split; congruence. }
  intros k. destruct (decide (k ≤ S (length l1))) as [Hle|Hgt].
  - eapply goes_round_le; [|exact Hle]. eexists. exact H1.
  - replace k with (S (length l1) + (k - S (length l1))) by lia.
    unfold goes_round. rewrite (after_iterations_add _ _ _ _ _ _ H1).
    apply Hever.
Qed.

Lemma while_true_OutOfFuel n start_swap other_swaps st :
  while_true n start_swap other_swaps st = OutOfFuel
  ↔ goes_round n start_swap other_swaps st.
Proof.
  unfold goes_round. revert st. induction n as [|n IH]; intros st; cbn.
  - split; [eauto|reflexivity].
  - destruct (loop_body start_swap other_swaps st); [apply IH|..];
      (split; [discriminate|intros [? ?]; discriminate]).
Qed.

(** More rounds than there are other swaps: the loop never ends. *)
Lemma goes_round_past_all start_swap other_swaps st :
  goes_round (S (length other_swaps)) start_swap other_swaps st →
  ∀ k, goes_round k start_swap other_swaps st.
Proof.
  intros [st' Hn].
  destruct (after_iterations_path _ _ _ _ _ Hn) as (ms & Hms & Hlen & Hall & _).
  destruct (decide (NoDup ms)) as [Hnodup|Hdup].
  - assert (Hle : length ms ≤ length other_swaps).
    { apply submseteq_length, NoDup_submseteq; [exact Hnodup|].
      rewrite Forall_forall in Hall. intros x Hx. apply Hall, Hx. }
    lia.
  - eapply repeated_swap_for_ever; eauto.
Qed.

Lemma while_true_Return_inv n start_swap other_swaps st r :
  while_true n start_swap other_swaps st = Return r →
  ∃ k st', k < n
           ∧ after_iterations k start_swap other_swaps st = Some st'
           ∧ loop_body start_swap other_swaps st' = Break r.
Proof.
  revert st. induction n as [|n IH]; intros st; cbn; [discriminate|].
  destruct (loop_body start_swap other_swaps st) as [st1|r'|e] eqn:Hbody.
  - intros (k & st' & Hk & Hafter & Hbreak)%IH.
    exists (S k), st'. split; [lia|]. cbn. rewrite Hbody. auto.
  - intros [= ->]. exists 0, st. split; [lia|]. auto.
  - discriminate.
Qed.

Lemma while_true_Raise_inv n start_swap other_swaps st e :
  while_true n start_swap other_swaps st = Raise e →
  ∃ k st', k < n
           ∧ after_iterations k start_swap other_swaps st = Some st'
           ∧ loop_body start_swap other_swaps st' = Throw e.
Proof.
  revert st. induction n as [|n IH]; intros st; cbn; [discriminate|].
  destruct (loop_body start_swap other_swaps st) as [st1|r'|e'] eqn:Hbody.
  - intros (k & st' & Hk & Hafter & Hbreak)%IH.
    exists (S k), st'. split; [lia|]. cbn. rewrite Hbody. auto.
  - discriminate.
  - intros [= ->]. exists 0, st. split; [lia|]. auto.
Qed.

Lemma after_iterations_stops k start_swap other_swaps st st' :
  after_iterations k start_swap other_swaps st = Some st' →
  (∀ st'', loop_body start_swap other_swaps st' ≠ Continue st'') →
  ¬ goes_round (S k) start_swap other_swaps st.
Proof.
  intros Hk Hstop [st'' Hround].
  replace (S k) with (k + 1) in Hround by lia.
  rewrite (after_iterations_add _ _ _ _ _ _ Hk) in Hround. cbn in Hround.
  destruct (loop_body start_swap other_swaps st') eqn:Hbody;
    try discriminate.
  eapply Hstop. reflexivity.
Qed.

Lemma search_settles fuel start_swap other_swaps :
  S (length other_swaps) ≤ fuel →
  _get_arbitrage_starting_with_swap fuel start_swap other_swaps
  = _get_arbitrage_starting_with_swap (S (length other_swaps))
      start_swap other_swaps.
Proof.
  intros Hle. unfold _get_arbitrage_starting_with_swap.
  destruct (while_true (S (length other_swaps)) start_swap other_swaps
              (initial_state start_swap)) as [r|e|] eqn:Hsmall.
  - eapply while_true_more_fuel; [exact Hsmall|discriminate|exact Hle].
  - eapply while_true_more_fuel; [exact Hsmall|discriminate|exact Hle].
  - apply while_true_OutOfFuel. apply goes_round_past_all.
    apply while_true_OutOfFuel. exact Hsmall.
Qed.

(** X1.  A search that ends at all (returns or raises) has done so after at
    most one iteration more than there are other swaps. *)
Theorem search_ends_early_or_never fuel start_swap other_swaps :
  _get_arbitrage_starting_with_swap fuel start_swap other_swaps ≠ OutOfFuel →
  _get_arbitrage_starting_with_swap (S (length other_swaps))
    start_swap other_swaps
  = _get_arbitrage_starting_with_swap fuel start_swap other_swaps.
Proof.
  intros Hends.
  destruct (decide (S (length other_swaps) ≤ fuel)) as [Hle|Hgt].
  - symmetry. apply search_settles, Hle.
  - unfold _get_arbitrage_starting_with_swap in *.
    eapply while_true_more_fuel; [reflexivity|exact Hends|lia].
Qed.

Lemma search_ends_early_or_never_witness :
  _get_arbitrage_starting_with_swap
    (S (length (all_but 0 Sample.cycle_then_fork)))
    (Sample.hop1 "0xa" 100) (all_but 0 Sample.cycle_then_fork)
  = _get_arbitrage_starting_with_swap 1
      (Sample.hop1 "0xa" 100) (all_but 0 Sample.cycle_then_fork).
Proof.
  apply (search_ends_early_or_never 1
           (Sample.hop1 "0xa" 100) (all_but 0 Sample.cycle_then_fork)).
  vm_compute. discriminate.
Defined.

(** X2.  A search still going after one iteration more than there are other
    swaps goes on for ever. *)
Theorem search_past_all_swaps_never_ends start_swap other_swaps :
  _get_arbitrage_starting_with_swap (S (length other_swaps))
    start_swap other_swaps = OutOfFuel →
  ∀ fuel,
    _get_arbitrage_starting_with_swap fuel start_swap other_swaps = OutOfFuel.
Proof.
  unfold _get_arbitrage_starting_with_swap. intros Hsmall fuel.
  apply while_true_OutOfFuel. apply goes_round_past_all.
  apply while_true_OutOfFuel. exact Hsmall.
Qed.

Lemma search_past_all_swaps_never_ends_witness :
  _get_arbitrage_starting_with_swap 1000 Sample.lasso_entry
    [Sample.lasso_there; Sample.lasso_back] = OutOfFuel.
Proof.
  refine (search_past_all_swaps_never_ends Sample.lasso_entry
            [Sample.lasso_there; Sample.lasso_back] _ 1000).
  vm_compute. reflexivity.
Defined.

(** What a search that returns an arbitrage has appended to the path. *)
Lemma search_Some_inv fuel start_swap other_swaps arbitrage :
  _get_arbitrage_starting_with_swap fuel start_swap other_swaps
  = Return (Some arbitrage) →
  ∃ middle final,
    Arbitrage.swaps arbitrage = start_swap :: middle ++ [final]
    ∧ Forall (λ swap, swap ∈ other_swaps ∧ ¬ closes start_swap swap) middle
    ∧ final ∈ other_swaps ∧ closes start_swap final
    ∧ NoDup (middle ++ [final])
    ∧ Swap.pool_address
        (default final (head (middle ++ [final])))
      = Swap.to_address start_swap
    ∧ Arbitrage.account_address arbitrage = Swap.from_address start_swap
    ∧ Arbitrage.profit_token_address arbitrage
      = Swap.token_in_address start_swap
    ∧ Arbitrage.start_amount arbitrage = Swap.token_in_amount start_swap
    ∧ Arbitrage.end_amount arbitrage = Swap.token_out_amount final
    ∧ Arbitrage.profit_amount arbitrage
      = (Swap.token_out_amount final - Swap.token_in_amount start_swap)%Z.
Proof.
  unfold _get_arbitrage_starting_with_swap.
  intros (k & st & _ & Hk & Hbreak)%while_true_Return_inv.
  destruct (after_iterations_path _ _ _ _ _ Hk)
    as (middle & Hpath & Hlen & Hall & _).
  apply loop_body_Break_Some_inv in Hbreak as Hinv.
  destruct Hinv as (final & Hc & Hcloses & ->).
  assert (Hfinal : final ∈ swaps_from_current_address other_swaps st)
    by (rewrite Hc; left).
  unfold swaps_from_current_address in Hfinal.
  apply list_elem_of_filter in Hfinal as [_ Hfinal].
  exists middle, final. cbn. rewrite Hpath. cbn.
  split; [reflexivity|]. split; [exact Hall|]. split; [exact Hfinal|].
  split; [exact Hcloses|]. split.
  { apply NoDup_app. split; [|split; [|apply NoDup_singleton]].
    - destruct (decide (NoDup middle)) as [Hn|Hdup]; [exact Hn|].
      exfalso. eapply after_iterations_stops; [exact Hk| |].
      + intros st''. rewrite Hbreak. discriminate.
      + eapply repeated_swap_for_ever; eauto.
    - intros x Hx Hxf. apply list_elem_of_singleton in Hxf as ->.
      rewrite Forall_forall in Hall. destruct (Hall _ Hx) as [_ Hopen].
      contradiction. }
  split; [|repeat split; reflexivity].
  destruct k as [|k].
  - cbn in Hk. injection Hk as <-. destruct middle; [|discriminate]. cbn.
    assert (Hin : final ∈ swaps_from_current_address other_swaps
                    (initial_state start_swap)) by (rewrite Hc; left).
    apply candidate_continues in Hin as [Hp _]. exact Hp.
  - cbn in Hk.
    destruct (loop_body start_swap other_swaps (initial_state start_swap))
      as [st1| |] eqn:Hfirst; try discriminate.
    apply loop_body_Continue_inv in Hfirst as (swap & Hc1 & _ & ->).
    destruct (after_iterations_path _ _ _ _ _ Hk) as (more & Hmore & _).
    cbn in Hmore. rewrite Hpath in Hmore. cbn in Hmore.
    injection Hmore as ->. cbn.
    assert (Hin : swap ∈ swaps_from_current_address other_swaps
                    (initial_state start_swap)) by (rewrite Hc1; left).
    apply candidate_continues in Hin as [Hp _]. exact Hp.
Qed.

(** * More properties of the detector *)

Lemma all_but_subseteq index (swaps : list Swap.t) : all_but index swaps ⊆ swaps.
Proof.
  unfold all_but. intros x [Hx|Hx]%elem_of_app.
  - eapply subseteq_take, Hx.
  - eapply subseteq_drop, Hx.
Qed.

Lemma length_all_but index (swaps : list Swap.t) :
  index < length swaps → S (length (all_but index swaps)) = length swaps.
Proof.
  intros Hlt. unfold all_but.
  rewrite length_app, length_take, length_drop. lia.
Qed.

Lemma elem_of_enumerate {A} (l : list A) i x :
  (i, x) ∈ enumerate l ↔ l !! i = Some x.
Proof.
  unfold enumerate. rewrite list_elem_of_lookup. split.
  - intros [j Hj]. rewrite list_lookup_imap in Hj.
    destruct (l !! j) eqn:E; cbn in Hj; congruence.
  - intros Hi. exists i. rewrite list_lookup_imap, Hi. reflexivity.
Qed.

Lemma for_each_start_Forall_in (P : Arbitrage.t → Prop)
    fuel swaps pool_addresses todo :
  (∀ index start_swap arbitrage,
     (index, start_swap) ∈ todo →
     Swap.from_address start_swap ∉ pool_addresses →
     _get_arbitrage_starting_with_swap fuel start_swap (all_but index swaps)
     = Return (Some arbitrage) →
     P arbitrage) →
  ∀ all_arbitrages result,
    Forall P all_arbitrages →
    for_each_start fuel swaps pool_addresses todo all_arbitrages = Return result →
    Forall P result.
Proof.
  induction todo as [|[index first_swap] todo IH]; intros HP acc result Hacc;
    cbn [for_each_start].
  - intros [= <-]. exact Hacc.
  - assert (HP' : ∀ index start_swap arbitrage,
              (index, start_swap) ∈ todo →
              Swap.from_address start_swap ∉ pool_addresses →
              _get_arbitrage_starting_with_swap fuel start_swap
                (all_but index swaps) = Return (Some arbitrage) →
              P arbitrage).
    { intros i s a Hin. apply HP. right. exact Hin. }
    case_decide as Hq; [|apply IH; assumption].
    destruct (_get_arbitrage_starting_with_swap fuel first_swap
                (all_but index swaps)) as [[a|]|e|] eqn:Hs; cbn;
      try discriminate.
    + apply IH; [exact HP'|]. apply Forall_app. split; [exact Hacc|].
      constructor; [|constructor]. eapply HP; [left|exact Hq|exact Hs].
    + apply IH; assumption.
Qed.

(** X3.  Every arbitrage of a returned list starts at a swap of the input
    whose sender is no pool address; its account is that sender, its profit
    token and start amount are that swap's input token and amount, its end
    amount is its last swap's output amount, and its profit is the end amount
    less the start amount. *)
Theorem detected_arbitrage_accounts fuel swaps result :
  _get_arbitrages_from_swaps fuel swaps = Return result →
  Forall (λ arbitrage,
            ∃ index first final,
              swaps !! index = Some first
              ∧ head (Arbitrage.swaps arbitrage) = Some first
              ∧ last (Arbitrage.swaps arbitrage) = Some final
              ∧ Arbitrage.account_address arbitrage = Swap.from_address first
              ∧ (Arbitrage.account_address arbitrage
                 ∉ Swap.pool_address <$> swaps)
              ∧ Arbitrage.profit_token_address arbitrage
                = Swap.token_in_address first
              ∧ Arbitrage.start_amount arbitrage = Swap.token_in_amount first
              ∧ Arbitrage.end_amount arbitrage = Swap.token_out_amount final
              ∧ Arbitrage.profit_amount arbitrage
                = (Arbitrage.end_amount arbitrage
                   - Arbitrage.start_amount arbitrage)%Z)
         result.
Proof.
  unfold _get_arbitrages_from_swaps.
  apply for_each_start_Forall_in; [|constructor].
  intros index start_swap arbitrage Hin%elem_of_enumerate Hq Hs.
  apply search_Some_inv in Hs
    as (middle & final & Hpath & _ & _ & _ & _ & _ & Hacc & Htok & Hsa & Hea & Hpa).
  exists index, start_swap, final. rewrite Hpath.
  split; [exact Hin|]. split; [reflexivity|]. split.
  { rewrite app_comm_cons, last_snoc. reflexivity. }
  split; [exact Hacc|]. split.
  { rewrite Hacc. intros Hpool. apply Hq.
    apply elem_of_list_to_set. exact Hpool. }
  split; [exact Htok|]. split; [exact Hsa|]. split; [exact Hea|].
  rewrite Hpa, Hea, Hsa. reflexivity.
Qed.

Lemma detected_arbitrage_accounts_witness :
  Forall (λ arbitrage,
            ∃ index first final,
              [Sample.hop1 "0xa" 100; Sample.hop2 "0xa" 90] !! index
              = Some first
              ∧ head (Arbitrage.swaps arbitrage) = Some first
              ∧ last (Arbitrage.swaps arbitrage) = Some final
              ∧ Arbitrage.account_address arbitrage = Swap.from_address first
              ∧ (Arbitrage.account_address arbitrage
                 ∉ Swap.pool_address
                     <$> [Sample.hop1 "0xa" 100; Sample.hop2 "0xa" 90])
              ∧ Arbitrage.profit_token_address arbitrage
                = Swap.token_in_address first
              ∧ Arbitrage.start_amount arbitrage = Swap.token_in_amount first
              ∧ Arbitrage.end_amount arbitrage = Swap.token_out_amount final
              ∧ Arbitrage.profit_amount arbitrage
                = (Arbitrage.end_amount arbitrage
                   - Arbitrage.start_amount arbitrage)%Z)
         [Sample.two_hop_arbitrage "0xa" 100 90].
Proof.
  apply (detected_arbitrage_accounts 1
           [Sample.hop1 "0xa" 100; Sample.hop2 "0xa" 90]).
  vm_compute. reflexivity.
Defined.

(** The path of an arbitrage found from a start the detector searches. *)
Lemma searched_path_is_distinct fuel swaps index start_swap arbitrage :
  swaps !! index = Some start_swap →
  Swap.from_address start_swap ∉@{gset string}
    list_to_set (Swap.pool_address <$> swaps) →
  _get_arbitrage_starting_with_swap fuel start_swap (all_but index swaps)
  = Return (Some arbitrage) →
  NoDup (Arbitrage.swaps arbitrage)
  ∧ Arbitrage.swaps arbitrage ⊆ swaps
  ∧ length (Arbitrage.swaps arbitrage) ≤ length swaps.
Proof.
  intros Hin Hq Hs.
  pose proof Hs as Hreturned.
  apply search_Some_inv in Hs
    as (middle & final & Hpath & Hmiddle & Hfinal & Hcloses & Hnodup & Hfirst & _).
  assert (Hsub : Arbitrage.swaps arbitrage ⊆ swaps).
  { rewrite Hpath. intros x [->|Hx]%elem_of_cons.
    - eapply list_elem_of_lookup_2, Hin.
    - apply all_but_subseteq with index.
      apply elem_of_app in Hx as [Hx|Hx].
      + rewrite Forall_forall in Hmiddle. apply Hmiddle, Hx.
      + apply list_elem_of_singleton in Hx as ->. exact Hfinal. }
  assert (Hdistinct : NoDup (Arbitrage.swaps arbitrage)).
  { rewrite Hpath. apply NoDup_cons. split; [|exact Hnodup].
    intros Hagain. apply Hq. apply elem_of_list_to_set.
    (* the swap that follows the start sits at the start's [to_address];
       the start, met again on the path, would bring the path back there *)
    apply elem_of_app in Hagain as [Hmid|Hend].
    - exfalso.
      unfold _get_arbitrage_starting_with_swap in Hreturned.
      apply while_true_Return_inv in Hreturned
        as (k & st & _ & Hk & Hbreak).
      destruct (after_iterations_path _ _ _ _ _ Hk)
        as (ms & Hms & Hlen & _ & _).
      apply loop_body_Break_Some_inv in Hbreak as Hinv.
      destruct Hinv as (final' & _ & _ & Harb).
      rewrite Harb in Hpath. cbn in Hpath. rewrite Hms in Hpath.
      cbn in Hpath. injection Hpath as Hpath.
      apply app_inj_2 in Hpath as [-> _]; [|reflexivity].
      apply list_elem_of_split in Hmid as (l1 & l2 & ->).
      rewrite length_app in Hlen. cbn in Hlen.
      replace k with (S (length l1) + length l2) in Hk by lia.
      apply after_iterations_split in Hk as Hsplit.
      destruct Hsplit as (st1 & H1 & H2).
      destruct (after_iterations_path _ _ _ _ _ H1)
        as (m1 & Hp1 & Hl1 & _ & Hk1).
      destruct (after_iterations_path _ _ _ _ _ H2) as (m2 & Hp2 & Hl2 & _).
      rewrite Hp2, Hp1, <- app_assoc in Hms. apply app_inv_head in Hms.
      change (l1 ++ start_swap :: l2) with (l1 ++ [start_swap] ++ l2) in Hms.
      rewrite app_assoc in Hms.
      apply app_inj_1 in Hms as [E1 _]; [|rewrite length_app; cbn; lia].
      destruct Hk1 as (f1 & Hf1 & Ha1 & Ht1); [lia|].
      rewrite E1, last_snoc in Hf1. injection Hf1 as <-.
      eapply after_iterations_stops; [exact Hk| |].
      + intros st''. rewrite Hbreak. discriminate.
      + apply (goes_round_for_ever (S (length l1)) _ _ _ st1);
          [exact H1|lia|split; cbn; congruence].
    - apply list_elem_of_singleton in Hend as <-.
      destruct Hcloses as [Hback _]. rewrite <- Hback, <- Hfirst.
      apply list_elem_of_fmap_2.
      apply all_but_subseteq with index.
      destruct middle as [|m middle]; cbn.
      + exact Hfinal.
      + rewrite Forall_forall in Hmiddle. apply Hmiddle. left. }
  split; [exact Hdistinct|]. split; [exact Hsub|].
  apply submseteq_length, NoDup_submseteq; assumption.
Qed.


(** X4.  No arbitrage of a returned list holds the same swap twice; all its
    swaps are swaps of the input, so it has at most as many swaps as the
    input. *)
Theorem detected_arbitrage_swaps_are_distinct fuel swaps result :
  _get_arbitrages_from_swaps fuel swaps = Return result →
  Forall (λ arbitrage,
            NoDup (Arbitrage.swaps arbitrage)
            ∧ Arbitrage.swaps arbitrage ⊆ swaps
            ∧ length (Arbitrage.swaps arbitrage) ≤ length swaps)
         result.
Proof.
  unfold _get_arbitrages_from_swaps.
  apply for_each_start_Forall_in; [|constructor].
  intros index start_swap arbitrage Hin%elem_of_enumerate Hq Hs.
  eapply searched_path_is_distinct; eauto.
Qed.

Lemma detected_arbitrage_swaps_are_distinct_witness :
  Forall (λ arbitrage,
            NoDup (Arbitrage.swaps arbitrage)
            ∧ Arbitrage.swaps arbitrage
              ⊆ [Sample.hop1 "0xa" 100; Sample.hop2 "0xa" 110]
            ∧ length (Arbitrage.swaps arbitrage)
              ≤ length [Sample.hop1 "0xa" 100; Sample.hop2 "0xa" 110])
         [Sample.two_hop_arbitrage "0xa" 100 110].
Proof.
  apply (detected_arbitrage_swaps_are_distinct 1
           [Sample.hop1 "0xa" 100; Sample.hop2 "0xa" 110]).
  vm_compute. reflexivity.
Defined.

Lemma for_each_start_Raise_inv fuel swaps pool_addresses todo :
  ∀ all_arbitrages e,
    for_each_start fuel swaps pool_addresses todo all_arbitrages = Raise e →
    ∃ index start_swap,
      (index, start_swap) ∈ todo
      ∧ (Swap.from_address start_swap ∉ pool_addresses)
      ∧ _get_arbitrage_starting_with_swap fuel start_swap (all_but index swaps)
        = Raise e.
Proof.
  induction todo as [|[index first_swap] todo IH]; intros acc e;
    cbn [for_each_start]; [discriminate|].
  assert (Hlater :
    ∀ acc', for_each_start fuel swaps pool_addresses todo acc' = Raise e →
            ∃ index0 start_swap,
              (index0, start_swap) ∈ (index, first_swap) :: todo
              ∧ (Swap.from_address start_swap ∉ pool_addresses)
              ∧ _get_arbitrage_starting_with_swap fuel start_swap
                  (all_but index0 swaps) = Raise e).
  { intros acc' (i & s & Hin & Hq & Hs)%IH. exists i, s.
    split; [right; exact Hin|auto]. }
  case_decide as Hq; [|apply Hlater].
  destruct (_get_arbitrage_starting_with_swap fuel first_swap
              (all_but index swaps)) as [[a|]|e'|] eqn:Hs; cbn;
    try discriminate; try apply Hlater.
  intros [= <-]. exists index, first_swap. split; [left|auto].
Qed.

(** X5.  Detection raises nothing but the [RuntimeError] of its [raise], and
    raises it only when the search from some start it does not skip meets
    more than one swap continuing the path; the indexing
    [swaps_from_current_address[0]] never fails. *)
Theorem detection_raises_only_on_ambiguity fuel swaps e :
  _get_arbitrages_from_swaps fuel swaps = Raise e →
  e = RuntimeError "todo"
  ∧ ∃ index start_swap,
      swaps !! index = Some start_swap
      ∧ (Swap.from_address start_swap ∉@{gset string}
           list_to_set (Swap.pool_address <$> swaps))
      ∧ ambiguous start_swap (all_but index swaps).
Proof.
  unfold _get_arbitrages_from_swaps.
  intros (index & start_swap & Hin & Hq & Hs)%for_each_start_Raise_inv.
  unfold _get_arbitrage_starting_with_swap in Hs.
  apply while_true_Raise_inv in Hs as (k & st & _ & Hk & Hthrow).
  apply loop_body_Throw_inv in Hthrow as [-> Hmany].
  split; [reflexivity|]. exists index, start_swap.
  split; [apply elem_of_enumerate, Hin|]. split; [exact Hq|].
  exists k, st. auto.
Qed.

Lemma detection_raises_only_on_ambiguity_witness :
  RuntimeError "todo" = RuntimeError "todo"
  ∧ ∃ index start_swap,
      Sample.cycle_then_fork !! index = Some start_swap
      ∧ (Swap.from_address start_swap ∉@{gset string}
           list_to_set (Swap.pool_address <$> Sample.cycle_then_fork))
      ∧ ambiguous start_swap (all_but index Sample.cycle_then_fork).
Proof.
  apply (detection_raises_only_on_ambiguity 1 Sample.cycle_then_fork
           (RuntimeError "todo")).
  vm_compute. reflexivity.
Defined.

(** X6.  A returned list holds, in the order of the swaps, what the search
    from each swap gave: nothing for a swap whose sender is a pool address or
    whose search returned [None], one arbitrage otherwise; so it is never
    longer than the list of swaps. *)
Theorem detection_gives_one_result_per_start fuel swaps result :
  _get_arbitrages_from_swaps fuel swaps = Return result →
  ∃ found : list (option Arbitrage.t),
    Forall2 (λ p r,
               if decide (Swap.from_address p.2 ∉@{gset string}
                            list_to_set (Swap.pool_address <$> swaps))
               then _get_arbitrage_starting_with_swap fuel p.2
                      (all_but p.1 swaps) = Return r
               else r = None)
            (enumerate swaps) found
    ∧ result = omap id found
    ∧ length result ≤ length swaps.
Proof.
  unfold _get_arbitrages_from_swaps.
  generalize (list_to_set (Swap.pool_address <$> swaps) : gset string)
    as pool_addresses.
  intros pool_addresses Hret.
  assert (Hgen : ∀ todo acc result,
    for_each_start fuel swaps pool_addresses todo acc = Return result →
    ∃ found : list (option Arbitrage.t),
      Forall2 (λ p r,
                 if decide (Swap.from_address p.2 ∉ pool_addresses)
                 then _get_arbitrage_starting_with_swap fuel p.2
                        (all_but p.1 swaps) = Return r
                 else r = None) todo found
      ∧ result = acc ++ omap id found).
  { clear. induction todo as [|[index first_swap] todo IH]; intros acc result;
      cbn [for_each_start].
    - intros [= <-]. exists []. split; [constructor|].
      cbn. rewrite app_nil_r. reflexivity.
    - case_decide as Hq.
      + destruct (_get_arbitrage_starting_with_swap fuel first_swap
                    (all_but index swaps)) as [[a|]|e|] eqn:Hs; cbn;
          try discriminate.
        * intros (found & Hfound & ->)%IH. exists (Some a :: found). split.
          -- constructor; [|exact Hfound]. cbn. rewrite decide_True by exact Hq.
             exact Hs.
          -- cbn. rewrite <- app_assoc. reflexivity.
        * intros (found & Hfound & ->)%IH. exists (None :: found). split.
          -- constructor; [|exact Hfound]. cbn. rewrite decide_True by exact Hq.
             exact Hs.
          -- reflexivity.
      + intros (found & Hfound & ->)%IH. exists (None :: found). split.
        * constructor; [|exact Hfound]. cbn.
          rewrite decide_False by (intros Hn; exact (Hn Hq)). reflexivity.
        * reflexivity. }
  destruct (Hgen _ _ _ Hret) as (found & Hfound & ->).
  exists found. split; [exact Hfound|]. split; [reflexivity|]. cbn.
  apply Forall2_length in Hfound. unfold enumerate in Hfound.
  rewrite length_imap in Hfound. rewrite Hfound.
  clear. induction found as [|[a|] found IH]; cbn; lia.
Qed.

Lemma detection_gives_one_result_per_start_witness :
  ∃ found : list (option Arbitrage.t),
    Forall2 (λ p r,
               if decide (Swap.from_address p.2 ∉@{gset string}
                            list_to_set
                              (Swap.pool_address
                                 <$> [Sample.hop1 "0xa" 100;
                                      Sample.hop2 "0xa" 110]))
               then _get_arbitrage_starting_with_swap 1 p.2
                      (all_but p.1 [Sample.hop1 "0xa" 100;
                                    Sample.hop2 "0xa" 110]) = Return r
               else r = None)
            (enumerate [Sample.hop1 "0xa" 100; Sample.hop2 "0xa" 110]) found
    ∧ [Sample.two_hop_arbitrage "0xa" 100 110] = omap id found
    ∧ length [Sample.two_hop_arbitrage "0xa" 100 110]
      ≤ length [Sample.hop1 "0xa" 100; Sample.hop2 "0xa" 110].
Proof.
  apply (detection_gives_one_result_per_start 1
           [Sample.hop1 "0xa" 100; Sample.hop2 "0xa" 110]).
  vm_compute. reflexivity.
Defined.

Lemma for_each_start_ext fuel fuel' swaps pool_addresses todo :
  (∀ index start_swap,
     (index, start_swap) ∈ todo →
     _get_arbitrage_starting_with_swap fuel start_swap (all_but index swaps)
     = _get_arbitrage_starting_with_swap fuel' start_swap
         (all_but index swaps)) →
  ∀ all_arbitrages,
    for_each_start fuel swaps pool_addresses todo all_arbitrages
    = for_each_start fuel' swaps pool_addresses todo all_arbitrages.
Proof.
  induction todo as [|[index first_swap] todo IH]; intros Hsame acc;
    cbn [for_each_start]; [reflexivity|].
  assert (Hrest : ∀ acc',
    for_each_start fuel swaps pool_addresses todo acc'
    = for_each_start fuel' swaps pool_addresses todo acc').
  { apply IH. intros i s Hin. apply Hsame. right. exact Hin. }
  case_decide; [|apply Hrest].
  rewrite (Hsame index first_swap) by left.
  destruct (_get_arbitrage_starting_with_swap fuel' first_swap
              (all_but index swaps)) as [[a|]|e|]; cbn; auto.
Qed.

(** X7.  Over [n] swaps, no search of a detection that ends takes more than
    [n] iterations: letting the loops run longer changes nothing, and a
    detection that has not ended by then never ends. *)
Theorem detection_settles fuel swaps :
  length swaps ≤ fuel →
  _get_arbitrages_from_swaps fuel swaps
  = _get_arbitrages_from_swaps (length swaps) swaps.
Proof.
  intros Hle. unfold _get_arbitrages_from_swaps.
  apply for_each_start_ext.
  intros index start_swap Hin%elem_of_enumerate.
  apply lookup_lt_Some in Hin.
  pose proof (length_all_but index swaps Hin) as Hlen.
  rewrite search_settles by lia.
  rewrite Hlen. reflexivity.
Qed.

Lemma detection_settles_witness :
  _get_arbitrages_from_swaps 9 Sample.lasso
  = _get_arbitrages_from_swaps (length Sample.lasso) Sample.lasso.
Proof.
  apply (detection_settles 9 Sample.lasso). cbn. lia.
Defined.

(** X8.  Two swaps that form a cycle are found: when the second is at the
    pool the first paid into, takes the token the first paid out, and pays
    the first's input token back to the first's sender, who is neither pool,
    detection returns the one arbitrage made of the two. *)
Theorem two_swap_cycle_is_found fuel first second :
  0 < fuel →
  Swap.from_address first ≠ Swap.pool_address first →
  Swap.from_address first ≠ Swap.pool_address second →
  continues first second →
  closes first second →
  _get_arbitrages_from_swaps fuel [first; second]
  = Return [ {| Arbitrage.swaps := [first; second];
                Arbitrage.account_address := Swap.from_address first;
                Arbitrage.profit_token_address := Swap.token_in_address first;
                Arbitrage.start_amount := Swap.token_in_amount first;
                Arbitrage.end_amount := Swap.token_out_amount second;
                Arbitrage.profit_amount :=
                  (Swap.token_out_amount second
                   - Swap.token_in_amount first)%Z |} ].
Proof.
  intros Hfuel Hp1 Hp2 [Hpool Htoken] [Hback Hin].
  destruct fuel as [|fuel]; [lia|].
  unfold _get_arbitrages_from_swaps.
  change (enumerate [first; second]) with [(0, first); (1, second)].
  cbn [for_each_start].
  rewrite decide_True
    by (rewrite elem_of_list_to_set; cbn;
        rewrite !elem_of_cons, elem_of_nil; tauto).
  assert (Hfirst :
    _get_arbitrage_starting_with_swap (S fuel) first (all_but 0 [first; second])
    = Return (Some {|
        Arbitrage.swaps := [first; second];
        Arbitrage.account_address := Swap.from_address first;
        Arbitrage.profit_token_address := Swap.token_in_address first;
        Arbitrage.start_amount := Swap.token_in_amount first;
        Arbitrage.end_amount := Swap.token_out_amount second;
        Arbitrage.profit_amount :=
          (Swap.token_out_amount second - Swap.token_in_amount first)%Z |})).
  { unfold _get_arbitrage_starting_with_swap. cbn [while_true].
    rewrite loop_body_cases. unfold swaps_from_current_address, all_but.
    cbn [take drop app initial_state current_address current_token swap_path].
    rewrite filter_cons_True by (split; assumption).
    rewrite filter_nil. rewrite decide_True by (split; assumption).
    reflexivity. }
  rewrite Hfirst. cbn [mbind outcome_bind app].
  assert (Hsecond :
    _get_arbitrage_starting_with_swap (S fuel) second
      (all_but 1 [first; second]) = Return None).
  { unfold _get_arbitrage_starting_with_swap. cbn [while_true].
    rewrite loop_body_cases. unfold swaps_from_current_address, all_but.
    cbn [take drop app initial_state current_address current_token swap_path].
    rewrite filter_cons_False; [reflexivity|].
    intros [Hp _]. apply Hp1. congruence. }
  case_decide; [rewrite Hsecond|]; reflexivity.
Qed.

Lemma two_swap_cycle_is_found_witness :
  _get_arbitrages_from_swaps 1 [Sample.hop1 "0xa" 100; Sample.hop2 "0xa" 90]
  = Return [ {| Arbitrage.swaps :=
                  [Sample.hop1 "0xa" 100; Sample.hop2 "0xa" 90];
                Arbitrage.account_address :=
                  Swap.from_address (Sample.hop1 "0xa" 100);
                Arbitrage.profit_token_address :=
                  Swap.token_in_address (Sample.hop1 "0xa" 100);
                Arbitrage.start_amount :=
                  Swap.token_in_amount (Sample.hop1 "0xa" 100);
                Arbitrage.end_amount :=
                  Swap.token_out_amount (Sample.hop2 "0xa" 90);
                Arbitrage.profit_amount :=
                  (Swap.token_out_amount (Sample.hop2 "0xa" 90)
                   - Swap.token_in_amount (Sample.hop1 "0xa" 100))%Z |} ].
Proof.
  apply (two_swap_cycle_is_found 1
           (Sample.hop1 "0xa" 100) (Sample.hop2 "0xa" 90)).
  - lia.
  - discriminate.
  - discriminate.
  - split; reflexivity.
  - split; reflexivity.
Defined.

(** X9.  When the sender of every swap is some swap's pool address, no
    search is started and detection returns the empty list. *)
Theorem no_outside_sender_no_arbitrage fuel swaps :
  Forall (λ swap, Swap.from_address swap ∈ Swap.pool_address <$> swaps) swaps →
  _get_arbitrages_from_swaps fuel swaps = Return [].
Proof.
  intros Hall. unfold _get_arbitrages_from_swaps.
  assert (Hgen : ∀ todo acc,
    Forall (λ p, Swap.from_address p.2 ∈ Swap.pool_address <$> swaps) todo →
    for_each_start fuel swaps (list_to_set (Swap.pool_address <$> swaps))
      todo acc = Return acc).
  { induction todo as [|[index first_swap] todo IH]; intros acc Htodo;
      cbn [for_each_start]; [reflexivity|].
    apply Forall_cons in Htodo as [Hin Htodo]. cbn in Hin.
    rewrite decide_False; [apply IH, Htodo|].
    intros Hnot. apply Hnot, elem_of_list_to_set, Hin. }
  apply Hgen. apply Forall_forall. intros [i s] Hin%elem_of_enumerate.
  rewrite Forall_forall in Hall. apply Hall.
  eapply list_elem_of_lookup_2, Hin.
Qed.

Lemma no_outside_sender_no_arbitrage_witness :
  _get_arbitrages_from_swaps 0 MoreSamples.pool_ring = Return [].
Proof.
  apply (no_outside_sender_no_arbitrage 0 MoreSamples.pool_ring).
  repeat (apply Forall_cons; split; [by_computation|]). constructor.
Defined.

(** * More properties of the reconstructor *)

(** X10.  A swap that is built is at the callee of the swap call and carries
    the call's transaction hash, trace address and recognized [abi_name]. *)
Theorem built_swap_is_located_by_its_trace
    trace prior_transfers child_transfers swap :
  _build_swap trace prior_transfers child_transfers = Return (Some swap) →
  Swap.pool_address swap = ClassifiedTrace.to_address trace
  ∧ Swap.transaction_hash swap = ClassifiedTrace.transaction_hash trace
  ∧ Swap.trace_address swap = ClassifiedTrace.trace_address trace
  ∧ ClassifiedTrace.abi_name trace = Some (Swap.abi_name swap)
  ∧ (Swap.abi_name swap = UNISWAP_V2_PAIR_ABI_NAME
     ∨ Swap.abi_name swap = UNISWAP_V3_POOL_ABI_NAME).
Proof.
  intros Hbuild.
  apply _build_swap_Some in Hbuild as (p & tin & tout & Hp & _ & _ & ->). cbn.
  repeat split.
  - unfold pattern_of in Hp. repeat case_decide; simplify_eq; assumption.
  - destruct p; [left|right]; reflexivity.
Qed.

Lemma built_swap_is_located_by_its_trace_witness :
  Swap.pool_address (Sample.hop2 "0xa" 110)
  = ClassifiedTrace.to_address
      (Sample.v2_swap_call "0xa" [2%Z] "X" "P2" (Some "X"))
  ∧ Swap.transaction_hash (Sample.hop2 "0xa" 110)
    = ClassifiedTrace.transaction_hash
        (Sample.v2_swap_call "0xa" [2%Z] "X" "P2" (Some "X"))
  ∧ Swap.trace_address (Sample.hop2 "0xa" 110)
    = ClassifiedTrace.trace_address
        (Sample.v2_swap_call "0xa" [2%Z] "X" "P2" (Some "X"))
  ∧ ClassifiedTrace.abi_name
      (Sample.v2_swap_call "0xa" [2%Z] "X" "P2" (Some "X"))
    = Some (Swap.abi_name (Sample.hop2 "0xa" 110))
  ∧ (Swap.abi_name (Sample.hop2 "0xa" 110) = UNISWAP_V2_PAIR_ABI_NAME
     ∨ Swap.abi_name (Sample.hop2 "0xa" 110) = UNISWAP_V3_POOL_ABI_NAME).
Proof.
  apply (built_swap_is_located_by_its_trace
           (Sample.v2_swap_call "0xa" [2%Z] "X" "P2" (Some "X"))
           [from_trace_spec
              (Sample.transfer_call "0xa" [1%Z; 0%Z] "B" "P1" "P2" 80)]
           [from_trace_spec
              (Sample.transfer_call "0xa" [2%Z; 0%Z] "A" "P2" "X" 110)]
           (Sample.hop2 "0xa" 110)).
  vm_compute. reflexivity.
Defined.

(** ** Python's [<] on trace addresses is a strict total order *)

Lemma trace_address_ltb_irrefl a : trace_address_ltb a a = false.
Proof.
  induction a as [|x a IH]; cbn; [reflexivity|].
  rewrite decide_True by reflexivity. exact IH.
Qed.

Lemma trace_address_ltb_trans a b c :
  trace_address_ltb a b = true → trace_address_ltb b c = true →
  trace_address_ltb a c = true.
Proof.
  revert b c. induction a as [|x a IH]; intros [|y b] [|z c]; cbn;
    try discriminate; try reflexivity.
  repeat case_decide; subst; try congruence; eauto;
    rewrite ?bool_decide_eq_true; lia.
Qed.

Lemma trace_address_ltb_connected a b :
  trace_address_ltb a b = false → trace_address_ltb b a = false → a = b.
Proof.
  revert b. induction a as [|x a IH]; intros [|y b]; cbn;
    try discriminate; try reflexivity.
  destruct (decide (x = y)) as [->|Hne].
  - rewrite decide_True by reflexivity. intros Hab Hba. f_equal. auto.
  - rewrite decide_False by congruence. rewrite !bool_decide_eq_false. lia.
Qed.

(** ** [sorted] rearranges, nothing more *)

Lemma insert_sorted_Permutation {A K} (ltb : K → K → bool) (key : A → K) x l :
  insert_sorted ltb key x l ≡ₚ x :: l.
Proof.
  induction l as [|y l IH]; cbn; [reflexivity|].
  destruct (ltb (key y) (key x)); [|reflexivity].
  rewrite IH. apply Permutation_swap.
Qed.

Lemma sorted_Permutation {A K} (ltb : K → K → bool) (key : A → K) l :
  sorted ltb key l ≡ₚ l.
Proof.
  induction l as [|x l IH]; [reflexivity|].
  change (sorted ltb key (x :: l))
    with (insert_sorted ltb key x (sorted ltb key l)).
  rewrite insert_sorted_Permutation, IH. reflexivity.
Qed.

Lemma StronglySorted_sublist {A} (R : relation A) l k :
  l `sublist_of` k → StronglySorted R k → StronglySorted R l.
Proof.
  induction 1 as [|x l k Hsub IH|x l k Hsub IH]; intros Hk.
  - constructor.
  - apply StronglySorted_cons in Hk as [Hx Hk].
    apply StronglySorted_cons. split; [|auto].
    rewrite Forall_forall in Hx |- *. intros y Hy. apply Hx.
    eapply elem_of_sublist; eauto.
  - apply StronglySorted_cons in Hk as [_ Hk]. auto.
Qed.


Section more_reconstruct_properties.
Variable from_trace : ClassifiedTrace.t → Transfer.t.
Variable get_child_transfers :
  list Z → list ClassifiedTrace.t → list Transfer.t.
Variable remove_child_transfers : list Transfer.t → list Transfer.t.

(** X11.  The guarded indexing of the parsers never fails: [_build_swap]
    returns for every trace and lists of transfers, and [_get_swaps] returns
    a list of swaps for every list of traces. *)
Theorem reconstruction_never_raises :
  (∀ trace prior_transfers child_transfers,
     ∃ r, _build_swap trace prior_transfers child_transfers = Return r)
  ∧ ∀ traces, ∃ swaps, _get_swaps from_trace get_child_transfers
      remove_child_transfers traces
  = Return swaps.
Proof.
  split.
  - apply _build_swap_returns.
  - intros traces. apply for_each_trace_returns.
Qed.

(** The swaps the scan adds come, in order, from swap traces it went
    through. *)
Lemma for_each_trace_origins traces ordered_traces :
  ∀ swaps prior_transfers result,
    for_each_trace from_trace get_child_transfers
        remove_child_transfers traces ordered_traces swaps prior_transfers
    = Return result →
    ∃ added origins,
      result = swaps ++ added
      ∧ origins `sublist_of` ordered_traces
      ∧ Forall2 (λ swap trace,
                   ClassifiedTrace.classification trace = Classification.swap
                   ∧ ∃ seen_transfers,
                       _build_swap trace
                         (remove_child_transfers seen_transfers)
                         (remove_child_transfers
                            (get_child_transfers
                               (ClassifiedTrace.trace_address trace) traces))
                       = Return (Some swap))
                added origins.
Proof.
  induction ordered_traces as [|trace rest IH]; intros swaps prior result;
    cbn [for_each_trace].
  - intros [= <-]. exists [], []. rewrite app_nil_r.
    repeat split; constructor.
  - case_decide as Htransfer.
    { intros (added & origins & -> & Hsub & Hall)%IH.
      exists added, origins. repeat split; [constructor|]; assumption. }
    case_decide as Hswap.
    2:{ intros (added & origins & -> & Hsub & Hall)%IH.
        exists added, origins. repeat split; [constructor|]; assumption. }
    destruct (_build_swap trace (remove_child_transfers prior)
                (remove_child_transfers
                   (get_child_transfers
                      (ClassifiedTrace.trace_address trace) traces)))
      as [[s|]|e|] eqn:Hbuild; cbn; try discriminate.
    + intros (added & origins & -> & Hsub & Hall)%IH.
      exists (s :: added), (trace :: origins).
      split; [rewrite <- app_assoc; reflexivity|].
      split; [constructor; exact Hsub|].
      constructor; [|exact Hall]. split; [exact Hswap|eauto].
    + intros (added & origins & -> & Hsub & Hall)%IH.
      exists added, origins. repeat split; [constructor|]; assumption.
Qed.

Lemma _get_swaps_origins traces swaps :
  _get_swaps from_trace get_child_transfers remove_child_transfers traces
  = Return swaps →
  ∃ origins,
    origins `sublist_of`
      sorted trace_address_ltb ClassifiedTrace.trace_address traces
    ∧ Forall2 (λ swap trace,
                 ClassifiedTrace.classification trace = Classification.swap
                 ∧ ∃ seen_transfers,
                     _build_swap trace
                       (remove_child_transfers seen_transfers)
                       (remove_child_transfers
                          (get_child_transfers
                             (ClassifiedTrace.trace_address trace) traces))
                     = Return (Some swap))
              swaps origins.
Proof.
  unfold _get_swaps.
  intros (added & origins & -> & Hsub & Hall)%for_each_trace_origins.
  exists origins. auto.
Qed.

Lemma _get_swaps_from_swap_traces traces swaps :
  _get_swaps from_trace get_child_transfers remove_child_transfers traces
  = Return swaps →
  Forall (λ swap,
            ∃ trace,
              trace ∈ traces
              ∧ ClassifiedTrace.classification trace = Classification.swap
              ∧ ClassifiedTrace.abi_name trace = Some (Swap.abi_name swap)
              ∧ Swap.transaction_hash swap
                = ClassifiedTrace.transaction_hash trace
              ∧ Swap.trace_address swap = ClassifiedTrace.trace_address trace
              ∧ Swap.pool_address swap = ClassifiedTrace.to_address trace)
         swaps.
Proof.
  intros Hswaps.
  apply _get_swaps_origins in Hswaps as (origins & Hsub & Hall).
  apply Forall_forall. intros swap Hswap.
  apply list_elem_of_lookup in Hswap as [i Hi].
  destruct (Forall2_lookup_l _ _ _ _ _ Hall Hi)
    as (trace & Hti & Hclass & seen & Hbuild).
  exists trace. split.
  { rewrite <- (sorted_Permutation trace_address_ltb
                  ClassifiedTrace.trace_address traces).
    eapply elem_of_sublist; [|exact Hsub].
    eapply list_elem_of_lookup_2, Hti. }
  split; [exact Hclass|].
  apply _build_swap_Some in Hbuild as (p & tin & tout & Hp & _ & _ & ->).
  cbn. repeat split.
  unfold pattern_of in Hp. repeat case_decide; simplify_eq; assumption.
Qed.


(** X13.  Whatever the order of the input traces, the swaps come out by
    ascending trace address. *)
Theorem reconstructed_swaps_are_in_trace_order traces swaps :
  _get_swaps from_trace get_child_transfers remove_child_transfers traces
  = Return swaps →
  StronglySorted (λ a b, trace_address_ltb b a = false)
    (Swap.trace_address <$> swaps).
Proof.
  intros Hswaps.
  apply _get_swaps_origins in Hswaps as (origins & Hsub & Hall).
  assert (Haddr : Swap.trace_address <$> swaps
                  = ClassifiedTrace.trace_address <$> origins).
  { clear Hsub. induction Hall as [|swap trace swaps origins Hone _ IH];
      [reflexivity|].
    cbn. rewrite IH. f_equal.
    destruct Hone as (_ & seen & Hbuild).
    apply _build_swap_Some in Hbuild as (p & tin & tout & _ & _ & _ & ->).
    reflexivity. }
  rewrite Haddr.
  apply (StronglySorted_fmap _
           (not_after trace_address_ltb ClassifiedTrace.trace_address)).
  { intros x y Hxy. exact Hxy. }
  eapply StronglySorted_sublist; [exact Hsub|].
  apply sorted_ascending.
  - apply trace_address_ltb_irrefl.
  - apply trace_address_ltb_trans.
  - apply trace_address_ltb_connected.
Qed.
End more_reconstruct_properties.


Lemma reconstructed_swaps_are_in_trace_order_witness :
  StronglySorted (λ a b, trace_address_ltb b a = false)
    (Swap.trace_address <$> Sample.lasso).
Proof.
  apply (reconstructed_swaps_are_in_trace_order
           from_trace_spec get_child_transfers_spec remove_child_transfers_spec
           (reverse Sample.lasso_traces) Sample.lasso).
  vm_compute. reflexivity.
Defined.

(** * More properties of the entry point *)

Lemma filter_all {A} (P : A → Prop) `{∀ x, Decision (P x)} (l : list A) :
  Forall P l → filter P l = l.
Proof.
  induction 1 as [|x l Hx _ IH]; [reflexivity|].
  rewrite filter_cons_True by exact Hx. rewrite IH. reflexivity.
Qed.

Lemma elem_of_concat {A} (x : A) (ls : list (list A)) :
  x ∈ concat ls ↔ ∃ l, x ∈ l ∧ l ∈ ls.
Proof.
  induction ls as [|l ls IH]; cbn.
  - rewrite elem_of_nil. split; [contradiction|].
    intros (l & _ & Hl). apply elem_of_nil in Hl. contradiction.
  - rewrite elem_of_app, IH. split.
    + intros [Hx|(l' & Hx & Hl')]; [exists l|exists l'];
        (split; [assumption|]); [left|right; assumption].
    + intros (l' & Hx & [->|Hl']%elem_of_cons); [left|right; exists l'];
        auto.
Qed.

Lemma string_ltb_sorted_unique (l k : list string) :
  StronglySorted (λ a b, String.ltb a b = true) l →
  StronglySorted (λ a b, String.ltb a b = true) k →
  (∀ x, x ∈ l ↔ x ∈ k) →
  l = k.
Proof.
  intros Hl Hk Hsame.
  assert (Hnodup : ∀ m, StronglySorted (λ a b, String.ltb a b = true) m →
                        NoDup m).
  { induction 1 as [|x m _ IH Hx]; constructor; [|exact IH].
    intros Hin. rewrite Forall_forall in Hx.
    specialize (Hx _ Hin). rewrite string_ltb_irrefl in Hx. discriminate. }
  eapply StronglySorted_unique_strong; [|exact Hl|exact Hk|].
  - intros a b _ _ Hab Hba.
    pose proof (string_ltb_trans _ _ _ Hab Hba) as Haa.
    rewrite string_ltb_irrefl in Haa. discriminate.
  - apply NoDup_Permutation; auto.
Qed.

Section entry_point_properties.
Variable from_trace : ClassifiedTrace.t → Transfer.t.
Variable get_child_transfers :
  list Z → list ClassifiedTrace.t → list Transfer.t.
Variable remove_child_transfers : list Transfer.t → list Transfer.t.

(** The transactions [get_arbitrages] goes through. *)
Lemma get_arbitrages_partitions fuel traces :
  ∃ hashes,
    StronglySorted (λ a b, String.ltb a b = true) hashes
    ∧ (∀ h, h ∈ hashes ↔ h ∈ ClassifiedTrace.transaction_hash <$> traces)
    ∧ get_arbitrages from_trace get_child_transfers
        remove_child_transfers fuel traces
      = for_each_transaction from_trace get_child_transfers
          remove_child_transfers fuel (partition_of traces <$> hashes) [].
Proof.
  destruct (groupby_sorted String.ltb ClassifiedTrace.transaction_hash
              string_ltb_irrefl string_ltb_trans string_ltb_connected traces)
    as (hashes & Hsorted & Hin & Hgroups).
  exists hashes. split; [exact Hsorted|]. split; [exact Hin|].
  unfold get_arbitrages. rewrite Hgroups. reflexivity.
Qed.

Lemma for_each_transaction_Return_inv fuel groups :
  ∀ all_arbitrages result,
    for_each_transaction from_trace get_child_transfers
        remove_child_transfers fuel groups all_arbitrages
    = Return result →
    ∃ results,
      Forall2 (λ group arbitrages,
                 _get_arbitrages_for_transaction from_trace get_child_transfers
                     remove_child_transfers fuel group.2
                 = Return arbitrages)
              groups results
      ∧ result = all_arbitrages ++ concat results.
Proof.
  induction groups as [|[h g] groups IH]; intros acc result;
    cbn [for_each_transaction].
  - intros [= <-]. exists []. split; [constructor|].
    cbn. rewrite app_nil_r. reflexivity.
  - destruct (_get_arbitrages_for_transaction from_trace get_child_transfers
      remove_child_transfers fuel g) as [r|e|] eqn:Hg;
      cbn [mbind outcome_bind]; try discriminate.
    intros (results & Hall & ->)%IH. exists (r :: results). split.
    + constructor; [exact Hg|exact Hall].
    + cbn. rewrite <- app_assoc. reflexivity.
Qed.

(** X14.  On the traces of a single transaction, [get_arbitrages] is the
    per-transaction stage run on these traces in their input order. *)
Theorem get_arbitrages_of_one_transaction fuel traces h :
  traces ≠ [] →
  Forall (λ trace, ClassifiedTrace.transaction_hash trace = h) traces →
  get_arbitrages from_trace get_child_transfers
      remove_child_transfers fuel traces
  = _get_arbitrages_for_transaction from_trace get_child_transfers
      remove_child_transfers fuel traces.
Proof.
  intros Hne Hall.
  destruct (get_arbitrages_partitions fuel traces)
    as (hashes & Hsorted & Hin & ->).
  assert (Hh : ∀ k, k ∈ hashes ↔ k = h).
  { intros k. rewrite Hin, list_elem_of_fmap. rewrite Forall_forall in Hall.
    split.
    - intros (t & -> & Ht). apply Hall, Ht.
    - intros ->. destruct traces as [|t traces]; [contradiction|].
      exists t. split; [symmetry; apply Hall; left|left]. }
  assert (hashes = [h]) as ->.
  { apply string_ltb_sorted_unique; [exact Hsorted|repeat constructor|].
    intros k. rewrite Hh, list_elem_of_singleton. reflexivity. }
  cbn [fmap list_fmap for_each_transaction]. unfold partition_of.
  rewrite (filter_all _ _ Hall).
  destruct (_get_arbitrages_for_transaction from_trace get_child_transfers
      remove_child_transfers fuel traces); reflexivity.
Qed.

(** X15.  The outcome of [get_arbitrages] depends on the traces of each
    transaction and their order, not on how the transactions are interleaved
    in the input. *)
Theorem get_arbitrages_ignores_interleaving fuel traces traces' :
  (∀ h,
     filter (λ trace, ClassifiedTrace.transaction_hash trace = h) traces
     = filter (λ trace, ClassifiedTrace.transaction_hash trace = h) traces') →
  get_arbitrages from_trace get_child_transfers
      remove_child_transfers fuel traces
  = get_arbitrages from_trace get_child_transfers
      remove_child_transfers fuel traces'.
Proof.
  intros Hsame.
  destruct (get_arbitrages_partitions fuel traces)
    as (hashes & Hsorted & Hin & ->).
  destruct (get_arbitrages_partitions fuel traces')
    as (hashes' & Hsorted' & Hin' & ->).
  assert (hashes = hashes') as <-.
  { apply string_ltb_sorted_unique; [assumption..|].
    intros k. rewrite Hin, Hin', !elem_of_keys_filter, Hsame. reflexivity. }
  f_equal. apply Forall_fmap_ext_1, Forall_forall. intros k _.
  unfold partition_of. rewrite Hsame. reflexivity.
Qed.

(** X16.  [get_arbitrages] returns a list only if the per-transaction stage
    returned for the traces of every transaction in the input, and the list
    then holds the arbitrages of each. *)
Theorem get_arbitrages_needs_every_transaction fuel traces result trace :
  get_arbitrages from_trace get_child_transfers
      remove_child_transfers fuel traces
  = Return result →
  trace ∈ traces →
  ∃ arbitrages,
    _get_arbitrages_for_transaction from_trace get_child_transfers
        remove_child_transfers fuel
      (filter (λ t, ClassifiedTrace.transaction_hash t
                    = ClassifiedTrace.transaction_hash trace) traces)
    = Return arbitrages
    ∧ arbitrages ⊆ result.
Proof.
  intros Hret Htrace.
  destruct (get_arbitrages_partitions fuel traces)
    as (hashes & _ & Hin & Heq).
  rewrite Heq in Hret.
  apply for_each_transaction_Return_inv in Hret as (results & Hall & ->).
  assert (Hh : ClassifiedTrace.transaction_hash trace ∈ hashes).
  { apply Hin, list_elem_of_fmap_2, Htrace. }
  apply list_elem_of_lookup in Hh as [i Hi].
  assert (Hgroup : (partition_of traces <$> hashes) !! i
                   = Some (partition_of traces
                             (ClassifiedTrace.transaction_hash trace))).
  { rewrite list_lookup_fmap, Hi. reflexivity. }
  destruct (Forall2_lookup_l _ _ _ _ _ Hall Hgroup) as (r & Hr & Hstage).
  exists r. split; [exact Hstage|].
  intros a Ha. cbn. apply elem_of_concat. exists r.
  split; [exact Ha|]. eapply list_elem_of_lookup_2, Hr.
Qed.

(** X17.  Every arbitrage [get_arbitrages] returns is a cycle of pairwise
    distinct swaps that all carry the hash of one transaction of the
    input. *)
Theorem returned_arbitrages_stay_in_one_transaction fuel traces result :
  get_arbitrages from_trace get_child_transfers
      remove_child_transfers fuel traces
  = Return result →
  Forall (λ arbitrage,
            cycle_invariant arbitrage
            ∧ NoDup (Arbitrage.swaps arbitrage)
            ∧ ∃ h,
                h ∈ ClassifiedTrace.transaction_hash <$> traces
                ∧ Forall (λ swap, Swap.transaction_hash swap = h)
                         (Arbitrage.swaps arbitrage))
         result.
Proof.
  intros Hret.
  destruct (get_arbitrages_partitions fuel traces)
    as (hashes & _ & Hin & Heq).
  rewrite Heq in Hret.
  apply for_each_transaction_Return_inv in Hret as (results & Hall & ->).
  cbn. apply Forall_forall. intros arbitrage Harb.
  apply elem_of_concat in Harb as (r & Harb & Hr).
  apply list_elem_of_lookup in Hr as [i Hi].
  destruct (Forall2_lookup_r _ _ _ _ _ Hall Hi) as (group & Hgroup & Hstage).
  rewrite list_lookup_fmap in Hgroup.
  destruct (hashes !! i) as [h|] eqn:Hh; [|discriminate].
  cbn in Hgroup. injection Hgroup as <-. cbn [partition_of snd] in Hstage.
  unfold _get_arbitrages_for_transaction in Hstage.
  destruct (_get_swaps from_trace get_child_transfers
      remove_child_transfers (filter _ traces)) as [swaps|e|] eqn:Hswaps;
    cbn [mbind outcome_bind] in Hstage; try discriminate.
  case_decide.
  2:{ injection Hstage as <-. apply elem_of_nil in Harb. contradiction. }
  assert (Hfacts :
    Forall (λ arbitrage,
              cycle_invariant arbitrage
              ∧ NoDup (Arbitrage.swaps arbitrage)
              ∧ Arbitrage.swaps arbitrage ⊆ swaps) r).
  { revert Hstage. unfold _get_arbitrages_from_swaps.
    apply for_each_start_Forall_in; [|constructor].
    intros index start_swap a Hs%elem_of_enumerate Hq Hsearch. split.
    - eapply while_true_cycle_invariant; [|exact Hsearch].
      apply initial_state_invariant.
    - destruct (searched_path_is_distinct _ _ _ _ _ Hs Hq Hsearch)
        as (Hnodup & Hsub & _). auto. }
  rewrite Forall_forall in Hfacts.
  destruct (Hfacts _ Harb) as (Hcycle & Hnodup & Hsub).
  split; [exact Hcycle|]. split; [exact Hnodup|].
  exists h. split.
  { apply Hin. eapply list_elem_of_lookup_2, Hh. }
  apply Forall_forall. intros swap Hswap. apply Hsub in Hswap.
  apply _get_swaps_from_swap_traces in Hswaps.
  rewrite Forall_forall in Hswaps.
  destruct (Hswaps _ Hswap) as (t & Ht & _ & _ & Hhash & _).
  apply list_elem_of_filter in Ht as [Hth _]. congruence.
Qed.
End entry_point_properties.

Lemma get_arbitrages_of_one_transaction_witness :
  get_arbitrages_spec 1 (Sample.two_hop "0xa" 100 110)
  = _get_arbitrages_for_transaction_spec 1 (Sample.two_hop "0xa" 100 110).
Proof.
  apply (get_arbitrages_of_one_transaction
           from_trace_spec get_child_transfers_spec remove_child_transfers_spec
           1 (Sample.two_hop "0xa" 100 110) "0xa").
  - discriminate.
  - repeat constructor.
Defined.

Lemma get_arbitrages_needs_every_transaction_witness :
  ∃ arbitrages,
    _get_arbitrages_for_transaction_spec 1
      (filter (λ t, ClassifiedTrace.transaction_hash t
                    = ClassifiedTrace.transaction_hash
                        (Sample.v2_swap_call "0xb" [1%Z] "X" "P1" (Some "P2")))
              (Sample.two_hop "0xb" 100 110 ++ Sample.two_hop "0xa" 100 90))
    = Return arbitrages
    ∧ arbitrages ⊆ [Sample.two_hop_arbitrage "0xa" 100 90;
                    Sample.two_hop_arbitrage "0xb" 100 110].
Proof.
  apply (get_arbitrages_needs_every_transaction
           from_trace_spec get_child_transfers_spec remove_child_transfers_spec
           1 (Sample.two_hop "0xb" 100 110 ++ Sample.two_hop "0xa" 100 90)).
  - vm_compute. reflexivity.
  - unfold Sample.two_hop. cbn [app]. right. left.
Defined.

Lemma returned_arbitrages_stay_in_one_transaction_witness :
  Forall (λ arbitrage,
            cycle_invariant arbitrage
            ∧ NoDup (Arbitrage.swaps arbitrage)
            ∧ ∃ h,
                h ∈ ClassifiedTrace.transaction_hash
                      <$> (Sample.two_hop "0xb" 100 110
                           ++ Sample.two_hop "0xa" 100 90)
                ∧ Forall (λ swap, Swap.transaction_hash swap = h)
                         (Arbitrage.swaps arbitrage))
         [Sample.two_hop_arbitrage "0xa" 100 90;
          Sample.two_hop_arbitrage "0xb" 100 110].
Proof.
  apply (returned_arbitrages_stay_in_one_transaction
           from_trace_spec get_child_transfers_spec remove_child_transfers_spec
           1 (Sample.two_hop "0xb" 100 110 ++ Sample.two_hop "0xa" 100 90)).
  vm_compute. reflexivity.
Defined.

Lemma filter_none {A} (P : A → Prop) `{∀ x, Decision (P x)} (l : list A) :
  Forall (λ x, ¬ P x) l → filter P l = [].
Proof.
  induction 1 as [|x l Hx _ IH]; [reflexivity|].
  rewrite filter_cons_False by exact Hx. exact IH.
Qed.

Lemma get_arbitrages_ignores_interleaving_witness :
  get_arbitrages_spec 1
    (Sample.two_hop "0xb" 100 110 ++ Sample.two_hop "0xa" 100 90)
  = get_arbitrages_spec 1
      (Sample.two_hop "0xa" 100 90 ++ Sample.two_hop "0xb" 100 110).
Proof.
  apply (get_arbitrages_ignores_interleaving
           from_trace_spec get_child_transfers_spec remove_child_transfers_spec
           1 (Sample.two_hop "0xb" 100 110 ++ Sample.two_hop "0xa" 100 90)
           (Sample.two_hop "0xa" 100 90 ++ Sample.two_hop "0xb" 100 110)).
  intros h.
  destruct (decide (h = "0xa")) as [->|Ha]; [vm_compute; reflexivity|].
  destruct (decide (h = "0xb")) as [->|Hb]; [vm_compute; reflexivity|].
  rewrite !filter_none; [reflexivity|..];
    unfold Sample.two_hop; cbn [app];
    repeat (apply Forall_cons; split; [cbn; congruence|]); constructor.
Defined.

(** * What detection emits for a closing start, and when it raises *)

(** When every start is skipped or its search returns, detection returns
    what the searches found, in the order of the starts. *)
Lemma for_each_start_found fuel swaps pool_addresses todo :
  Forall (start_returns fuel swaps pool_addresses) todo →
  ∀ all_arbitrages,
    ∃ found : list (option Arbitrage.t),
      Forall2 (λ p r,
                 if decide (Swap.from_address p.2 ∉ pool_addresses)
                 then _get_arbitrage_starting_with_swap fuel p.2
                        (all_but p.1 swaps) = Return r
                 else r = None)
              todo found
      ∧ for_each_start fuel swaps pool_addresses todo all_arbitrages
        = Return (all_arbitrages ++ omap id found).
Proof.
  induction 1 as [|[index first_swap] todo Hret _ IH]; intros acc.
  - exists []. split; [constructor|]. cbn. rewrite app_nil_r. reflexivity.
  - cbn [for_each_start]. destruct (decide (Swap.from_address first_swap
                                            ∉ pool_addresses)) as [Hq|Hq].
    + destruct Hret as [Hin|[r Hr]]; [cbn in Hin; tauto|].
      cbn [fst snd] in Hr. rewrite Hr. cbn [mbind outcome_bind].
      destruct r as [a|].
      * destruct (IH (acc ++ [a])) as (found & Hfound & ->).
        exists (Some a :: found). split.
        -- constructor; [|exact Hfound]. cbn [fst snd].
           rewrite decide_True by exact Hq. exact Hr.
        -- cbn. rewrite <- app_assoc. reflexivity.
      * destruct (IH acc) as (found & Hfound & ->).
        exists (None :: found). split; [|reflexivity].
        constructor; [|exact Hfound]. cbn [fst snd].
        rewrite decide_True by exact Hq. exact Hr.
    + destruct (IH acc) as (found & Hfound & ->).
      exists (None :: found). split; [|reflexivity].
      constructor; [|exact Hfound]. cbn [fst snd].
      rewrite decide_False by exact Hq. reflexivity.
Qed.

(** C1, as the code has it.  Let the search from a swap of the list whose
    sender is no pool address close, and let every start of the list be
    skipped or have its search return.  Then detection returns the list of
    what the searches found and, at the place of that swap, exactly one
    [Arbitrage]: its swaps are the path followed, its account and profit
    token the start's [from_address] and [token_in_address], its start
    amount the start's [token_in_amount], its end amount the last swap's
    [token_out_amount], its profit the difference of the two, whatever its
    sign. *)
Theorem closing_start_is_emitted
    swaps index start_swap n st latest_swap fuel :
  swaps !! index = Some start_swap →
  Swap.from_address start_swap ∉@{gset string}
    list_to_set (Swap.pool_address <$> swaps) →
  after_iterations n start_swap (all_but index swaps)
    (initial_state start_swap) = Some st →
  swaps_from_current_address (all_but index swaps) st = [latest_swap] →
  Swap.to_address latest_swap = Swap.from_address start_swap →
  Swap.token_out_address latest_swap = Swap.token_in_address start_swap →
  n < fuel →
  Forall (start_returns fuel swaps (list_to_set (Swap.pool_address <$> swaps)))
         (enumerate swaps) →
  ∃ arbitrage (found : list (option Arbitrage.t)),
    _get_arbitrages_from_swaps fuel swaps = Return (omap id found)
    ∧ length found = length swaps
    ∧ found !! index = Some (Some arbitrage)
    ∧ arbitrage ∈ omap id found
    ∧ Arbitrage.swaps arbitrage = swap_path st ++ [latest_swap]
    ∧ head (Arbitrage.swaps arbitrage) = Some start_swap
    ∧ last (Arbitrage.swaps arbitrage) = Some latest_swap
    ∧ Arbitrage.account_address arbitrage = Swap.from_address start_swap
    ∧ Arbitrage.profit_token_address arbitrage = Swap.token_in_address start_swap
    ∧ Arbitrage.start_amount arbitrage = Swap.token_in_amount start_swap
    ∧ Arbitrage.end_amount arbitrage = Swap.token_out_amount latest_swap
    ∧ Arbitrage.profit_amount arbitrage
      = (Arbitrage.end_amount arbitrage - Arbitrage.start_amount arbitrage)%Z.
Proof.
  intros Hindex Hq Hn Hone Haddr Htok Hfuel Hall.
  destruct (closing_search_returns_arbitrage _ _ _ _ _ fuel Hn Hone Haddr Htok Hfuel)
    as (arbitrage & Hsearch & Hfields).
  destruct (for_each_start_found _ _ _ _ Hall []) as (found & Hfound & Hret).
  pose proof (enumerate_lookup _ _ _ Hindex) as Henum.
  destruct (Forall2_lookup_l _ _ _ _ _ Hfound Henum) as (r & Hr & Hslot).
  cbn [fst snd] in Hslot. rewrite decide_True in Hslot by exact Hq.
  rewrite Hsearch in Hslot. injection Hslot as <-.
  exists arbitrage, found.
  split; [exact Hret|]. split.
  { rewrite <- (Forall2_length _ _ _ Hfound). apply length_imap. }
  split; [exact Hr|]. split; [|exact Hfields].
  apply list_elem_of_omap. exists (Some arbitrage).
  split; [eapply list_elem_of_lookup_2, Hr|reflexivity].
Qed.

Lemma closing_start_is_emitted_witness :
  ∃ arbitrage (found : list (option Arbitrage.t)),
    _get_arbitrages_from_swaps 1 [Sample.hop1 "0xa" 100; Sample.hop2 "0xa" 90]
    = Return (omap id found)
    ∧ length found = length [Sample.hop1 "0xa" 100; Sample.hop2 "0xa" 90]
    ∧ found !! 0 = Some (Some arbitrage)
    ∧ arbitrage ∈ omap id found
    ∧ Arbitrage.swaps arbitrage
      = swap_path (initial_state (Sample.hop1 "0xa" 100))
        ++ [Sample.hop2 "0xa" 90]
    ∧ head (Arbitrage.swaps arbitrage) = Some (Sample.hop1 "0xa" 100)
    ∧ last (Arbitrage.swaps arbitrage) = Some (Sample.hop2 "0xa" 90)
    ∧ Arbitrage.account_address arbitrage
      = Swap.from_address (Sample.hop1 "0xa" 100)
    ∧ Arbitrage.profit_token_address arbitrage
      = Swap.token_in_address (Sample.hop1 "0xa" 100)
    ∧ Arbitrage.start_amount arbitrage
      = Swap.token_in_amount (Sample.hop1 "0xa" 100)
    ∧ Arbitrage.end_amount arbitrage
      = Swap.token_out_amount (Sample.hop2 "0xa" 90)
    ∧ Arbitrage.profit_amount arbitrage
      = (Arbitrage.end_amount arbitrage - Arbitrage.start_amount arbitrage)%Z.
Proof.
  apply (closing_start_is_emitted
           [Sample.hop1 "0xa" 100; Sample.hop2 "0xa" 90] 0
           (Sample.hop1 "0xa" 100) 0
           (initial_state (Sample.hop1 "0xa" 100)) (Sample.hop2 "0xa" 90) 1).
  - reflexivity.
  - by_computation.
  - reflexivity.
  - reflexivity.
  - reflexivity.
  - reflexivity.
  - lia.
  - apply Forall_cons. split.
    + right. eexists. vm_compute. reflexivity.
    + apply Forall_cons. split; [|constructor].
      left. by_computation.
Defined.

(** An unskipped start with an ambiguous continuation: no list is ever
    returned. *)
Lemma ambiguous_start_never_returns swaps index start_swap :
  swaps !! index = Some start_swap →
  Swap.from_address start_swap ∉@{gset string}
    list_to_set (Swap.pool_address <$> swaps) →
  ambiguous start_swap (all_but index swaps) →
  ∀ fuel result, _get_arbitrages_from_swaps fuel swaps ≠ Return result.
Proof.
  intros Hindex Hstart (n & st & Hn & Hmany) fuel result Hret.
  unfold _get_arbitrages_from_swaps in Hret.
  apply for_each_start_returned in Hret.
  rewrite Forall_forall in Hret.
  destruct (Hret (index, start_swap)) as [Hin|[r Hr]]; cbn in *.
  - apply elem_of_enumerate, Hindex.
  - tauto.
  - eapply search_raises_never_returns; [|exact Hr].
    apply (ambiguous_raises _ _ n st (S n)); auto.
Qed.

(** C1, as the specification words it, fails.  In [pool_pair_cycle] the
    search from the first swap closes, but its sender is a pool address: the
    start is skipped and detection returns the empty list.  In
    [cycle_then_fork] the search from the first swap closes, but a later
    start is ambiguous: detection returns no list. *)
Lemma closing_start_need_not_be_emitted :
  (∃ arbitrage,
     _get_arbitrage_starting_with_swap 1
       (Sample.swap_at "0xa" [1%Z] "P1" "P2" "P2" "A" 100 "B" 80)
       (all_but 0 MoreSamples.pool_pair_cycle)
     = Return (Some arbitrage))
  ∧ (∀ fuel,
       _get_arbitrages_from_swaps fuel MoreSamples.pool_pair_cycle = Return [])
  ∧ _get_arbitrage_starting_with_swap 1
      (Sample.hop1 "0xa" 100) (all_but 0 Sample.cycle_then_fork)
    = Return (Some (Sample.two_hop_arbitrage "0xa" 100 110))
  ∧ ∀ fuel result,
      _get_arbitrages_from_swaps fuel Sample.cycle_then_fork ≠ Return result.
Proof.
  split; [eexists; vm_compute; reflexivity|]. split.
  { intros fuel. unfold _get_arbitrages_from_swaps.
    change (enumerate MoreSamples.pool_pair_cycle)
      with [(0, Sample.swap_at "0xa" [1%Z] "P1" "P2" "P2" "A" 100 "B" 80);
            (1, Sample.swap_at "0xa" [2%Z] "P2" "P1" "P2" "B" 80 "A" 110)].
    cbn [for_each_start].
    rewrite !decide_False by by_computation. reflexivity. }
  split; [vm_compute; reflexivity|].
  apply (ambiguous_start_never_returns Sample.cycle_then_fork 2
           (Sample.swap_at "0xa" [3%Z] "Q1" "Y" "Q2" "A" 100 "B" 80)).
  - reflexivity.
  - by_computation.
  - exists 0, (initial_state
                 (Sample.swap_at "0xa" [3%Z] "Q1" "Y" "Q2" "A" 100 "B" 80)).
    split; [reflexivity|vm_compute; lia].
Qed.

(** C4, as the code has it.  Let the search from a swap of the list whose
    sender is no pool address meet, at some iteration, more than one swap
    continuing the path, and let every start before it be skipped or have
    its search return.  Then detection raises the [RuntimeError]; and
    whatever the number of iterations allowed, detection returns no list of
    arbitrages: it raises that error or has not ended. *)
Theorem ambiguous_start_aborts_detection swaps index start_swap n st fuel :
  swaps !! index = Some start_swap →
  Swap.from_address start_swap ∉@{gset string}
    list_to_set (Swap.pool_address <$> swaps) →
  after_iterations n start_swap (all_but index swaps)
    (initial_state start_swap) = Some st →
  1 < length (swaps_from_current_address (all_but index swaps) st) →
  n < fuel →
  Forall (start_returns fuel swaps (list_to_set (Swap.pool_address <$> swaps)))
         (take index (enumerate swaps)) →
  _get_arbitrages_from_swaps fuel swaps = Raise (RuntimeError "todo")
  ∧ ∀ fuel',
      _get_arbitrages_from_swaps fuel' swaps = Raise (RuntimeError "todo")
      ∨ _get_arbitrages_from_swaps fuel' swaps = OutOfFuel.
Proof.
  intros Hindex Hstart Hn Hmany Hfuel Hbefore.
  pose proof (enumerate_lookup _ _ _ Hindex) as Henum.
  split.
  - unfold _get_arbitrages_from_swaps.
    rewrite <- (take_drop_middle _ _ _ Henum).
    destruct (for_each_start_past _ _ _ _ Hbefore []) as [acc Hacc].
    rewrite Hacc. cbn [for_each_start].
    rewrite decide_True by exact Hstart.
    rewrite (ambiguous_raises _ _ n st fuel) by auto. reflexivity.
  - intros fuel'.
    destruct (_get_arbitrages_from_swaps fuel' swaps) as [result|e|] eqn:Hd.
    + exfalso. eapply ambiguous_start_never_returns; [..|exact Hd]; eauto.
      exists n, st. auto.
    + left. f_equal. eapply for_each_start_raises, Hd.
    + right. reflexivity.
Qed.

Lemma ambiguous_start_aborts_detection_witness :
  _get_arbitrages_from_swaps 1 Sample.cycle_then_fork
  = Raise (RuntimeError "todo")
  ∧ ∀ fuel',
      _get_arbitrages_from_swaps fuel' Sample.cycle_then_fork
      = Raise (RuntimeError "todo")
      ∨ _get_arbitrages_from_swaps fuel' Sample.cycle_then_fork = OutOfFuel.
Proof.
  apply (ambiguous_start_aborts_detection Sample.cycle_then_fork 2
           (Sample.swap_at "0xa" [3%Z] "Q1" "Y" "Q2" "A" 100 "B" 80) 0
           (initial_state
              (Sample.swap_at "0xa" [3%Z] "Q1" "Y" "Q2" "A" 100 "B" 80)) 1).
  - reflexivity.
  - by_computation.
  - reflexivity.
  - vm_compute. lia.
  - lia.
  - apply Forall_cons. split.
    + right. eexists. vm_compute. reflexivity.
    + apply Forall_cons. split; [|constructor].
      left. by_computation.
Defined.

(** C4, as the specification words it, fails.  In [pool_fork] the search
    from the first swap would meet two continuations, but its sender is a
    pool address: the start is skipped and detection returns the empty list.
    In [lasso_then_fork] the start by [Y] is not skipped and its search
    meets two continuations, but the search from the first start never
    ends: detection never raises. *)
Lemma ambiguous_start_need_not_raise :
  ambiguous (Sample.swap_at "0xa" [1%Z] "P1" "P2" "P2" "A" 100 "B" 80)
    (all_but 0 MoreSamples.pool_fork)
  ∧ (∀ fuel, _get_arbitrages_from_swaps fuel MoreSamples.pool_fork = Return [])
  ∧ MoreSamples.lasso_then_fork !! 3
    = Some (Sample.swap_at "0xa" [3%Z] "Q1" "Y" "Q2" "A" 100 "B" 80)
  ∧ (Swap.from_address (Sample.swap_at "0xa" [3%Z] "Q1" "Y" "Q2" "A" 100 "B" 80)
     ∉@{gset string}
       list_to_set (Swap.pool_address <$> MoreSamples.lasso_then_fork))
  ∧ ambiguous (Sample.swap_at "0xa" [3%Z] "Q1" "Y" "Q2" "A" 100 "B" 80)
      (all_but 3 MoreSamples.lasso_then_fork)
  ∧ ∀ fuel,
      _get_arbitrages_from_swaps fuel MoreSamples.lasso_then_fork = OutOfFuel.
Proof.
  split.
  { exists 0, (initial_state
                 (Sample.swap_at "0xa" [1%Z] "P1" "P2" "P2" "A" 100 "B" 80)).
    split; [reflexivity|vm_compute; lia]. }
  split.
  { intros fuel. unfold _get_arbitrages_from_swaps.
    change (enumerate MoreSamples.pool_fork)
      with [(0, Sample.swap_at "0xa" [1%Z] "P1" "P2" "P2" "A" 100 "B" 80);
            (1, Sample.swap_at "0xa" [2%Z] "P2" "P1" "P1" "B" 40 "A" 60);
            (2, Sample.swap_at "0xa" [3%Z] "P2" "P1" "P1" "B" 40 "C" 50)].
    cbn [for_each_start].
    rewrite !decide_False by by_computation. reflexivity. }
  split; [reflexivity|]. split; [by_computation|]. split.
  { exists 0, (initial_state
                 (Sample.swap_at "0xa" [3%Z] "Q1" "Y" "Q2" "A" 100 "B" 80)).
    split; [reflexivity|vm_compute; lia]. }
  intros fuel.
  assert (Hsearch :
    _get_arbitrage_starting_with_swap fuel Sample.lasso_entry
      (all_but 0 MoreSamples.lasso_then_fork) = OutOfFuel).
  { unfold _get_arbitrage_starting_with_swap.
    apply while_true_OutOfFuel, goes_round_past_all, while_true_OutOfFuel.
    vm_compute. reflexivity. }
  unfold _get_arbitrages_from_swaps.
  change (enumerate MoreSamples.lasso_then_fork)
    with ((0, Sample.lasso_entry)
            :: imap (pair ∘ S) (tail MoreSamples.lasso_then_fork)).
  cbn [for_each_start].
  rewrite decide_True by by_computation.
  rewrite Hsearch. reflexivity.
Qed.
